(** * SimPy kernel: the event queue of [simpy.core.Environment] and the
    put/get protocol of [simpy.resources.base.BaseResource].

    The development is a shallow embedding of [src/src/simpy/core.py] and
    [src/simpy/resources/base.py].  Python objects with identity (events,
    requests) are references into an explicit store; a method that mutates
    [self] is a function on the state; a method that can raise returns an
    [outcome] together with the state reached when the exception left it.
    [core] has the clock on integers and callback lists as values;
    [core_py] has the same methods on floats and on list objects. *)

From Stdlib Require Import ZArith Lia.
From Stdlib Require PrimFloat.
From stdpp Require Import base option list gmap sorting.

Set Warnings "-register-all".
Open Scope Z_scope.
Open Scope nat_scope.

(** ** The standard library's [heapq], as [core.py] uses it

    [Environment.schedule] calls [heappush] and [Environment.step] calls
    [heappop] on the plain list [self._queue].  The two functions and their
    helpers [_siftdown] and [_siftup] are embedded as CPython's [heapq.py]
    writes them: the loops move items into a hole and store the saved item
    once at the end.  A [while] loop becomes a [Fixpoint] on a counter that
    bounds its iterations; the counter handed over by the caller is the
    loop's own variant, so the loop always leaves through its exit test. *)
Module heapq.
Section heapq.
Context {A : Type}.
(** The comparison [<] of the stored items. *)
Variable lt : A → A → bool.

(** [while pos > startpos: ...] of [_siftdown]; [newitem] is the saved
    item, the hole is at [pos]. *)
Fixpoint _siftdown_loop (n : nat) (heap : list A) (startpos pos : nat)
    (newitem : A) : list A :=
  match n with
  | 0 => <[pos := newitem]> heap
  | S n' =>
    if bool_decide (startpos < pos) then
      let parentpos := (pos - 1) / 2 in
      match heap !! parentpos with
      | Some parent =>
        if lt newitem parent
        then _siftdown_loop n' (<[pos := parent]> heap) startpos parentpos newitem
        else <[pos := newitem]> heap
      | None => <[pos := newitem]> heap
      end
    else <[pos := newitem]> heap
  end.

Definition _siftdown (heap : list A) (startpos pos : nat) : list A :=
  match heap !! pos with
  | Some newitem => _siftdown_loop pos heap startpos pos newitem
  | None => heap
  end.

(** [heap[i] < heap[j]]. *)
Definition lt_at (heap : list A) (i j : nat) : bool :=
  match heap !! i, heap !! j with
  | Some x, Some y => lt x y
  | _, _ => false
  end.

(** [while childpos < endpos: ...] of [_siftup]: the smaller child is
    moved up until the hole reaches a leaf; the result is the list and
    the position of the hole. *)
Fixpoint _siftup_loop (n : nat) (heap : list A) (endpos pos : nat)
    : list A * nat :=
  match n with
  | 0 => (heap, pos)
  | S n' =>
    let childpos := 2 * pos + 1 in
    if bool_decide (childpos < endpos) then
      let rightpos := childpos + 1 in
      let childpos :=
        if bool_decide (rightpos < endpos) && negb (lt_at heap childpos rightpos)
        then rightpos else childpos in
      match heap !! childpos with
      | Some child => _siftup_loop n' (<[pos := child]> heap) endpos childpos
      | None => (heap, pos)
      end
    else (heap, pos)
  end.

Definition _siftup (heap : list A) (pos : nat) : list A :=
  let endpos := length heap in
  let startpos := pos in
  match heap !! pos with
  | Some newitem =>
    let '(heap', pos') := _siftup_loop (endpos - pos) heap endpos pos in
    _siftdown (<[pos' := newitem]> heap') startpos pos'
  | None => heap
  end.

(** [heappush(heap, item)]. *)
Definition heappush (heap : list A) (item : A) : list A :=
  let heap := heap ++ [item] in
  _siftdown heap 0 (length heap - 1).

(** [heappop(heap)]: [None] stands for the [IndexError] of [heap.pop()]
    on an empty list; otherwise the returned item and the new list. *)
Definition heappop (heap : list A) : option (A * list A) :=
  match last heap with
  | None => None
  | Some lastelt =>
    let heap := take (length heap - 1) heap in
    match heap with
    | returnitem :: _ => Some (returnitem, _siftup (<[0 := lastelt]> heap) 0)
    | [] => Some (lastelt, heap)
    end
  end.
(** The order that [<] induces, and the shape of a heap: every item is
  at least its parent, the parent of position [j] being
  [(j - 1) >> 1]. *)
Definition le (x y : A) : Prop := lt y x = false.

Definition parent (j : nat) : nat := (j - 1) / 2.

Definition ordered_at (h : list A) (j : nat) : Prop :=
∀ x y, h !! parent j = Some x → h !! j = Some y → le x y.

Definition heap_ordered (h : list A) : Prop :=
∀ j, 0 < j → ordered_at h j.

(** The children of [pos] are at least the parent of [pos]. *)
Definition grands_ok (h : list A) (pos : nat) : Prop :=
0 < pos → ∀ c x y, 0 < c → parent c = pos →
  h !! parent pos = Some x → h !! c = Some y → le x y.

(** Loop invariant of [_siftdown]: the heap order holds but between
  [pos] and its parent. *)
Definition up_inv (h : list A) (pos : nat) : Prop :=
(∀ j, 0 < j → j ≠ pos → ordered_at h j) ∧ grands_ok h pos.

(** Loop invariant of [_siftup]: the heap order holds but between [pos]
  and its parent and between [pos] and its children. *)
Definition down_inv (h : list A) (pos : nat) : Prop :=
(∀ j, 0 < j → j ≠ pos → parent j ≠ pos → ordered_at h j) ∧ grands_ok h pos.
End heapq.
End heapq.

(** ** [simpy.core]: events, callbacks and the environment *)
Module core.

(** A reference to a Python object (object identity). *)
Abbreviation ref := nat.

(** Exception classes: the two of [core.py], the built-in ones that its
    statements raise, and any other class, by name. *)
Inductive exc_class :=
| EmptySchedule | StopSimulation
| ValueError | RuntimeError | TypeError | AttributeError | IndexError
| AssertionError
| OtherError (name : nat).

(** Python values that reach the kernel: the [PENDING] sentinel, [None],
    numbers, message strings, and exception instances with their [args]
    and [__cause__]. *)
Inductive value :=
| PENDING
| PyNone
| PyInt (z : Z)
| PyStr (s : nat)
| Exc (cls : exc_class) (args : list value) (cause : option value).

(** Result of a call that may raise. *)
Inductive outcome (A : Type) :=
| Return (a : A)
| Raise (exc : value).
Arguments Return {A} a.
Arguments Raise {A} exc.

(** A callback stored in [event.callbacks]: [StopSimulation.callback], the
    only one defined in [core.py], or a callable of the surrounding
    program, by name. *)
Inductive callback :=
| cb_StopSimulation
| Callable (f : nat).

(** Modelled from the spec: the class [Event] of [simpy.events], which is
    not under src/.  "Attributes: disposition (unset until fired), result
    value or carried failure, ordered list of pending callbacks (cleared
    when fired), a defused flag".  [callbacks] is the list or [None];
    [_ok] is unset ([None]) until the event is triggered; [_value] is
    [PENDING] until then; [_defused] records whether the attribute
    [_defused] exists, which is what [step] tests with [hasattr]. *)
Record Event := mkEvent {
  callbacks : option (list callback);
  _ok : option bool;
  _value : value;
  _defused : bool
}.

(** [Event(env)]: a pending event without callbacks. *)
Definition Event_new : Event :=
  {| callbacks := Some []; _ok := None; _value := PENDING; _defused := false |}.

(** Modelled from the spec: the priority classes of [simpy.events];
    "urgent breaks ties before normal at equal time". *)
Definition URGENT : Z := 0.
Definition NORMAL : Z := 1.

(** A queue entry [(time, priority, eid, event)]. *)
Definition entry : Type := Z * Z * nat * ref.

Definition entry_time (x : entry) : Z := x.1.1.1.
Definition entry_priority (x : entry) : Z := x.1.1.2.
Definition entry_eid (x : entry) : nat := x.1.2.
Definition entry_event (x : entry) : ref := x.2.

(** [x < y] on entries, as Python compares tuples: the first component
    that differs decides.  Two entries that agree on time, priority and
    eid would have their events compared, which raises [TypeError] for
    events; [eids_distinct] below shows that the queue never holds two
    such entries, and the model answers [false] there. *)
Definition entry_lt (x y : entry) : bool :=
  let '(t1, p1, i1, _) := x in
  let '(t2, p2, i2, _) := y in
  if bool_decide (t1 = t2) then
    if bool_decide (p1 = p2) then
      if bool_decide (i1 = i2) then false else bool_decide (i1 < i2)
    else bool_decide (p1 < p2)%Z
  else bool_decide (t1 < t2)%Z.

(** The environment ([_now], [_queue], [_eid], the next value of
    [count()]) together with the store of event objects. *)
Record state := mkState {
  _now : Z;
  _queue : list entry;
  _eid : nat;
  events : gmap ref Event
}.

Definition set_now (t : Z) (s : state) : state :=
  {| _now := t; _queue := _queue s; _eid := _eid s; events := events s |}.
Definition set_queue (q : list entry) (s : state) : state :=
  {| _now := _now s; _queue := q; _eid := _eid s; events := events s |}.
Definition set_events (m : gmap ref Event) (s : state) : state :=
  {| _now := _now s; _queue := _queue s; _eid := _eid s; events := m |}.

(** [Environment(initial_time)], over the objects that already exist. *)
Definition Environment (initial_time : Z) (objs : gmap ref Event) : state :=
  {| _now := initial_time; _queue := []; _eid := 0; events := objs |}.

(** [Environment.schedule]. *)
Definition schedule (event : ref) (priority : Z) (delay : Z) (s : state) : state :=
  {| _now := _now s;
     _queue := heapq.heappush entry_lt (_queue s)
                 ((_now s + delay)%Z, priority, _eid s, event);
     _eid := S (_eid s);
     events := events s |}.

(** Time bound of [peek]. *)
Inductive time_bound := Finite (t : Z) | Infinity.

(** [Environment.peek]. *)
Definition peek (s : state) : time_bound :=
  match _queue s with
  | x :: _ => Finite (entry_time x)
  | [] => Infinity
  end.

(** Computations on the state that may raise; the state is kept when they
    do, as Python keeps the mutations made before an exception. *)
Definition M (A : Type) : Type := state → outcome A * state.

Definition ret {A} (a : A) : M A := λ s, (Return a, s).
Definition raise {A} (exc : value) : M A := λ s, (Raise exc, s).
Definition bind {A B} (m : M A) (k : A → M B) : M B :=
  λ s, match m s with
       | (Return a, s') => k a s'
       | (Raise exc, s') => (Raise exc, s')
       end.

Global Instance M_ret : MRet M := @ret.
Global Instance M_bind : MBind M := λ A B k m, bind m k.

(** An exception instance without arguments, [cls()]. *)
Definition exc0 (cls : exc_class) : value := Exc cls [] None.

(** The model's stand-in for a reference that is not in the store; Python
    has no such reference. *)
Definition dangling : value := Exc (OtherError 0) [] None.

Definition getobj (r : ref) : M Event :=
  λ s, match events s !! r with
       | Some ev => (Return ev, s)
       | None => (Raise dangling, s)
       end.

Definition setobj (r : ref) (ev : Event) : M unit :=
  λ s, (Return tt, set_events (<[r := ev]> (events s)) s).

Definition with_callbacks (c : option (list callback)) (ev : Event) : Event :=
  {| callbacks := c; _ok := _ok ev; _value := _value ev; _defused := _defused ev |}.
Definition with_ok (b : option bool) (ev : Event) : Event :=
  {| callbacks := callbacks ev; _ok := b; _value := _value ev; _defused := _defused ev |}.
Definition with_value (v : value) (ev : Event) : Event :=
  {| callbacks := callbacks ev; _ok := _ok ev; _value := v; _defused := _defused ev |}.

(** Assignment to an attribute of the object [r]. *)
Definition setattr (r : ref) (f : Event → Event) : M unit :=
  ev ← getobj r; setobj r (f ev).

(** [self.now]. *)
Definition get_now : M Z := λ s, (Return (_now s), s).

(** A method of the environment that does not raise. *)
Definition call (f : state → state) : M unit := λ s, (Return tt, f s).

(** [Event(env)] as an expression: the new object gets a reference that
    no object has. *)
Definition Event_init : M ref :=
  λ s, let r := fresh (dom (events s)) in
       (Return r, set_events (<[r := Event_new]> (events s)) s).

(** [event.callbacks.append(cb)]; [None] has no [append]. *)
Definition callbacks_append (r : ref) (cb : callback) : M unit :=
  ev ← getobj r;
  match callbacks ev with
  | Some cbs => setobj r (with_callbacks (Some (cbs ++ [cb])) ev)
  | None => raise (exc0 AttributeError)
  end.

(** What the surrounding program can do to the kernel from a callback:
    call [env.schedule], and assign the attributes of an event object (a
    new one included).  A callback list is a value held by its event: a
    callable reaches it through the attribute [callbacks] and keeps no
    other reference to the list object.  The module [core_py] below has
    the list as an object that references share. *)
Inductive action :=
| call_schedule (event : ref) (priority delay : Z)
| assign (event : ref) (obj : Event).

Definition perform (s : state) (a : action) : state :=
  match a with
  | call_schedule event priority delay => schedule event priority delay s
  | assign event obj => set_events (<[event := obj]> (events s)) s
  end.

Definition action_delay_ok (a : action) : Prop :=
  match a with
  | call_schedule _ _ delay => (0 ≤ delay)%Z
  | assign _ _ => True
  end.

(** The key [(time, priority, eid)] of an entry, in lexicographic order. *)
Definition key_lt (x y : entry) : Prop :=
  (entry_time x < entry_time y)%Z ∨
  entry_time x = entry_time y ∧
    ((entry_priority x < entry_priority y)%Z ∨
     entry_priority x = entry_priority y ∧ entry_eid x < entry_eid y).

Definition key_le (x y : entry) : Prop :=
  (entry_time x < entry_time y)%Z ∨
  entry_time x = entry_time y ∧
    ((entry_priority x < entry_priority y)%Z ∨
     entry_priority x = entry_priority y ∧ entry_eid x ≤ entry_eid y).

(** The queue is a heap, and its entries carry distinct eids that
    [count()] has already handed out. *)
Definition queue_ok (s : state) : Prop :=
  heapq.heap_ordered entry_lt (_queue s) ∧
  (∀ x, x ∈ _queue s → entry_eid x < _eid s) ∧
  NoDup (entry_eid <$> _queue s).

(** No entry of the queue lies before [now]. *)
Definition queue_future (s : state) : Prop :=
  ∀ x, x ∈ _queue s → (_now s ≤ entry_time x)%Z.

(** An entry whose event has succeeded and has no callback waiting. *)
Definition quiet_entry (s : state) (x : entry) : Prop :=
  match events s !! entry_event x with
  | Some ev => callbacks ev = Some [] ∧ _ok ev = Some true
  | None => False
  end.

(** The calls that a program makes on one environment. *)
Inductive op :=
| op_schedule (event : ref) (priority delay : Z)
| op_step.

Definition op_delay_ok (o : op) : Prop :=
  match o with
  | op_schedule _ _ delay => (0 ≤ delay)%Z
  | op_step => True
  end.

(** The entry that the next [step] pops. *)
Definition next_entry (s : state) : option entry :=
  fst <$> heapq.heappop entry_lt (_queue s).

(** The state after the pop of [step]: the entry [x] is gone and [now] is
    its time. *)
Definition popped (x : entry) (q : list entry) (s : state) : state :=
  set_queue q (set_now (entry_time x) s).

(** The state after [event.callbacks = None], [ev] being the object. *)
Definition detached (event : ref) (ev : Event) (s : state) : state :=
  set_events (<[event := with_callbacks None ev]> (events s)) s.


Section kernel.
(** The accessor [event.value] on a pending event: the property is
    defined in [simpy.events], of which src/ holds nothing. *)
Variable pending_value : outcome value.
(** The callables of the surrounding program: called on an event in a
    state, a callable performs some actions and then returns ([None])
    or raises. *)
Variable behaviour : nat → ref → state → list action * option value.

(** [event.ok]. *)
Definition Event_ok (ev : Event) : M bool :=
  match _ok ev with
  | Some b => ret b
  | None => raise (exc0 AttributeError)
  end.

(** [event.value]. *)
Definition value_property (ev : Event) : outcome value :=
  match _value ev with
  | PENDING => pending_value
  | v => Return v
  end.

Definition Event_value (ev : Event) : M value :=
  λ s, (value_property ev, s).

(** [event.triggered]. *)
Definition Event_triggered (ev : Event) : bool :=
  match _value ev with
  | PENDING => false
  | _ => true
  end.

(** [raise v]: only exception instances can be raised. *)
Definition raise_value {A} (v : value) : M A :=
  match v with
  | Exc _ _ _ => raise v
  | _ => raise (exc0 TypeError)
  end.

(** [StopSimulation.callback]. *)
Definition StopSimulation_callback (event : ref) : M unit :=
  ev ← getobj event;
  ok ← Event_ok ev;
  if (ok : bool) then
    v ← Event_value ev;
    raise (Exc StopSimulation [v] None)
  else
    v ← Event_value ev;
    raise_value v.

(** [callback(event)]. *)
Definition invoke (cb : callback) (event : ref) : M unit :=
  match cb with
  | cb_StopSimulation => StopSimulation_callback event
  | Callable f => λ s,
      let '(acts, r) := behaviour f event s in
      let s' := foldl perform s acts in
      match r with
      | None => (Return tt, s')
      | Some exc => (Raise exc, s')
      end
  end.

(** [for callback in callbacks: callback(event)]. *)
Fixpoint for_callbacks (cbs : list callback) (event : ref) : M unit :=
  match cbs with
  | [] => ret tt
  | cb :: cbs' => invoke cb event ;; for_callbacks cbs' event
  end.

(** The last statement of [step]: an event that failed and was not
    defused crashes the environment with a copy of its exception. *)
Definition crash_check (event : ref) : M unit :=
  ev ← getobj event;
  match _ok ev with
  | None => raise (exc0 AttributeError)
  | Some ok =>
    if negb ok && negb (_defused ev) then
      match _value ev with
      | Exc cls args cause => raise (Exc cls args (Some (_value ev)))
      | _ => raise (exc0 AttributeError)
      end
    else ret tt
  end.

(** [step] after the pop: detach the callbacks, call them, check. *)
Definition process (event : ref) : M unit :=
  ev ← getobj event;
  let cbs := callbacks ev in
  setobj event (with_callbacks None ev) ;;
  match cbs with
  | None => raise (exc0 TypeError)
  | Some cbs => for_callbacks cbs event ;; crash_check event
  end.

(** [Environment.step]. *)
Definition step : M unit := λ s,
  match heapq.heappop entry_lt (_queue s) with
  | None => (Raise (exc0 EmptySchedule), s)
  | Some ((t, _, _, event), q) => process event (set_queue q (set_now t s))
  end.

(** The argument [until] of [run].  A number is an [int] here, the
    branch [at = until] of [run], on a clock of integers; the module
    [core_py] below has the branch [at = float(until)]. *)
Inductive until_t :=
| until_None
| until_number (at_ : Z)
| until_Event (event : ref).

(** The statements of [run] before the loop.  The result is the value
    of the early [return], or the event that [until] is bound to when
    the loop starts ([None] for [until=None]). *)
Definition run_setup (until : until_t) : M (value + option ref) :=
  match until with
  | until_None => ret (inr None)
  | until_number at_ =>
      now ← get_now;
      if bool_decide (at_ ≤ now)%Z then raise (Exc ValueError [PyStr 0] None)
      else
        until ← Event_init;
        setattr until (with_ok (Some true)) ;;
        setattr until (with_value PyNone) ;;
        now ← get_now;
        call (schedule until URGENT (at_ - now)) ;;
        callbacks_append until cb_StopSimulation ;;
        ret (inr (Some until))
  | until_Event until =>
      ev ← getobj until;
      match callbacks ev with
      | None => v ← Event_value ev; ret (inl v)
      | Some _ =>
          callbacks_append until cb_StopSimulation ;;
          ret (inr (Some until))
      end
  end.

(** [while True: self.step()]: the loop is left by an exception only;
    [None] when [fuel] steps did not raise. *)
Fixpoint run_loop (fuel : nat) (s : state) : option (value * state) :=
  match fuel with
  | 0 => None
  | S fuel' =>
    match step s with
    | (Return _, s') => run_loop fuel' s'
    | (Raise exc, s') => Some (exc, s')
    end
  end.

(** The [except] clauses of [run]. *)
Definition run_except (until : option ref) (exc : value) : M value :=
  match exc with
  | Exc StopSimulation args _ =>
      match args with
      | v :: _ => ret v
      | [] => raise (exc0 IndexError)
      end
  | Exc EmptySchedule _ _ =>
      match until with
      | Some u =>
          ev ← getobj u;
          if Event_triggered ev then raise (exc0 AssertionError)
          else raise (Exc RuntimeError [PyStr 1] None)
      | None => ret PyNone
      end
  | _ => raise exc
  end.

(** [Environment.run]. *)
Definition run (fuel : nat) (until : until_t) (s : state)
    : option (outcome value * state) :=
  match run_setup until s with
  | (Raise exc, s') => Some (Raise exc, s')
  | (Return (inl v), s') => Some (Return v, s')
  | (Return (inr u), s') =>
    match run_loop fuel s' with
    | None => None
    | Some (exc, s'') => Some (run_except u exc s'')
    end
  end.
(** A program as the sequence of its calls; the state is kept when a
  step raises. *)
Definition exec1 (o : op) (s : state) : state :=
match o with
| op_schedule event priority delay => schedule event priority delay s
| op_step => (step s).2
end.

Definition exec (ops : list op) (s : state) : state :=
foldl (λ s o, exec1 o s) s ops.

(** The entries popped by the steps of a program, in order. *)
Fixpoint fired (ops : list op) (s : state) : list entry :=
match ops with
| [] => []
| o :: ops' =>
  match o with
  | op_step => option_list (next_entry s)
  | op_schedule _ _ _ => []
  end ++ fired ops' (exec1 o s)
end.

(** [n] steps in a row, none of which raises. *)
Fixpoint steps (n : nat) (s : state) : option state :=
match n with
| 0 => Some s
| S n' =>
  match step s with
  | (Return _, s') => steps n' s'
  | (Raise _, _) => None
  end
end.

(** The callables ask [schedule] for no negative delay. *)
Definition behaviour_delays_ok : Prop :=
∀ f event s, Forall action_delay_ok (behaviour f event s).1.
(** A computation changes the state by actions only: calls of
  [schedule] and assignments to event objects. *)
Definition performs {A} (m : M A) : Prop :=
∀ s, ∃ acts, (m s).2 = foldl perform s acts ∧
             (behaviour_delays_ok → Forall action_delay_ok acts).
(** The calls that [for callback in callbacks] makes: each callback with
  the state it is called in. *)
Fixpoint invocations (cbs : list callback) (event : ref) (s : state)
  : list (callback * state) :=
match cbs with
| [] => []
| cb :: cbs' =>
  (cb, s) ::
  match invoke cb event s with
  | (Return _, s') => invocations cbs' event s'
  | (Raise _, _) => []
  end
end.
End kernel.
(** ** Sample objects and programs *)
Module sample.
(** A program without callables of its own. *)
Definition no_callables : nat → ref → state → list action * option value :=
  λ _ _ _, ([], None).

(** A property [value] that raises on a pending event. *)
Definition value_raises : outcome value := Raise (exc0 AttributeError).

(** An event triggered with success, and one triggered with a failure. *)
Definition succeeded (v : value) : Event :=
  {| callbacks := Some []; _ok := Some true; _value := v; _defused := false |}.
Definition failed (exc : value) : Event :=
  {| callbacks := Some []; _ok := Some false; _value := exc; _defused := false |}.

Definition step := core.step value_raises no_callables.
Definition exec := core.exec value_raises no_callables.
Definition fired := core.fired value_raises no_callables.
Definition steps := core.steps value_raises no_callables.
Definition run := core.run value_raises no_callables.
Definition run_loop := core.run_loop value_raises no_callables.
Definition for_callbacks := core.for_callbacks value_raises no_callables.
Definition invocations := core.invocations value_raises no_callables.

(** Three succeeded events. *)
Definition three : gmap ref Event :=
  <[1 := succeeded PyNone]> (<[2 := succeeded PyNone]> (<[3 := succeeded PyNone]> ∅)).

(** Events 1, 2 and 3 scheduled at the times 3, 5 and 7. *)
Definition timeline : list op :=
  [op_schedule 1 NORMAL 3; op_schedule 2 NORMAL 5; op_schedule 3 NORMAL 7].

(** One event, scheduled now. *)
Definition one (ev : Event) : state :=
  schedule 1 NORMAL 0 (Environment 0 (<[1 := ev]> ∅)).

(** An exception of the program. *)
Definition boom : value := Exc (OtherError 1) [PyStr 2] None.
End sample.
End core.
(** ** [simpy.resources.base]: the put/get protocol *)
Module resources.
Import core.

(** [list.remove(x)]: the first item equal to [x] goes; [None] stands for
    the [ValueError] raised when there is none. *)
Fixpoint list_remove (x : ref) (l : list ref) : option (list ref) :=
  match l with
  | [] => None
  | y :: l' => if decide (x = y) then Some l' else (y ::.) <$> list_remove x l'
  end.

(** The two queues of a [BaseResource] (plain lists, the default
    [PutQueue] and [GetQueue]). *)
Record BaseResource := mkResource {
  put_queue : list ref;
  get_queue : list ref
}.

(** [BaseResource(env)]. *)
Definition BaseResource_init : BaseResource :=
  {| put_queue := []; get_queue := [] |}.

Definition set_put_queue (q : list ref) (res : BaseResource) : BaseResource :=
  {| put_queue := q; get_queue := get_queue res |}.
Definition set_get_queue (q : list ref) (res : BaseResource) : BaseResource :=
  {| put_queue := put_queue res; get_queue := q |}.

(** Everything else that a call can touch: the request objects (requests
    are events) and the state [custom] of the subclass and of the
    environment behind it. *)
Record world (Σ : Type) := mkWorld {
  requests : gmap ref Event;
  custom : Σ
}.
Arguments mkWorld {Σ} _ _.
Arguments requests {Σ} _.
Arguments custom {Σ} _.

(** [event._value is PENDING]. *)
Definition is_pending {Σ} (w : world Σ) (event : ref) : bool :=
  match requests w !! event with
  | Some ev => match _value ev with PENDING => true | _ => false end
  | None => false
  end.

Section base.
Context {Σ Args : Type}.
(** The accessor [event.value] on a pending event (see [core]). *)
Variable pending_value : outcome value.
(** The part of the constructors [PutEvent] and [GetEvent] that the
    subclass adds to [Put.__init__] and [Get.__init__]: it stores the
    arguments of the request. *)
Variable PutEvent_args GetEvent_args : Args → ref → Σ → Σ.
(** The hooks [_do_put] and [_do_get] of the subclass, in the calls in
    which they return ([BaseResource] itself is abstract: its own hooks
    raise [NotImplementedError]).  They receive the request and may
    trigger it; they work on the world and leave the two queues to [put]
    and [get]. *)
Variable _do_put _do_get : ref → world Σ → world Σ.

(** [self.PutEvent(self, *args, **kwargs)] and the same for
    [GetEvent]: a new pending request. *)
Definition new_request (store_args : Args → ref → Σ → Σ) (args : Args)
    (w : world Σ) : ref * world Σ :=
  let r := fresh (dom (requests w)) in
  (r, {| requests := <[r := Event_new]> (requests w);
         custom := store_args args r (custom w) |}).

(** The loop of [put] and, with the roles exchanged, of [get]:
    [while queue: event = queue[0]; hook(event);
     if event._value is PENDING: break; queue.remove(event)].
    The counter bounds the iterations by the length of the queue. *)
Fixpoint trigger_queued (n : nat) (hook : ref → world Σ → world Σ)
    (queue : list ref) (w : world Σ)
    : outcome unit * list ref * world Σ :=
  match n with
  | 0 => (Return tt, queue, w)
  | S n' =>
    match queue with
    | [] => (Return tt, queue, w)
    | event :: _ =>
      let w := hook event w in
      if is_pending w event then (Return tt, queue, w)
      else
        match list_remove event queue with
        | Some queue' => trigger_queued n' hook queue' w
        | None => (Raise (exc0 ValueError), queue, w)
        end
    end
  end.

(** [BaseResource.put]. *)
Definition put (args : Args) (res : BaseResource) (w : world Σ)
    : outcome ref * BaseResource * world Σ :=
  let '(put_event, w) := new_request PutEvent_args args w in
  let w := _do_put put_event w in
  if negb (is_pending w put_event) then
    let '(o, q, w) :=
      trigger_queued (length (get_queue res)) _do_get (get_queue res) w in
    match o with
    | Return _ => (Return put_event, set_get_queue q res, w)
    | Raise exc => (Raise exc, set_get_queue q res, w)
    end
  else
    (Return put_event, set_put_queue (put_queue res ++ [put_event]) res, w).

(** [BaseResource.get]. *)
Definition get (args : Args) (res : BaseResource) (w : world Σ)
    : outcome ref * BaseResource * world Σ :=
  let '(get_event, w) := new_request GetEvent_args args w in
  let w := _do_get get_event w in
  if negb (is_pending w get_event) then
    let '(o, q, w) :=
      trigger_queued (length (put_queue res)) _do_put (put_queue res) w in
    match o with
    | Return _ => (Return get_event, set_put_queue q res, w)
    | Raise exc => (Raise exc, set_put_queue q res, w)
    end
  else
    (Return get_event, set_get_queue (get_queue res ++ [get_event]) res, w).

(** [Put.__exit__], also named [Put.cancel]: it reads the attribute
    [_value]. *)
Definition Put_cancel (self : ref) (res : BaseResource) (w : world Σ)
    : outcome unit * BaseResource :=
  match requests w !! self with
  | None => (Raise dangling, res)
  | Some ev =>
    match _value ev with
    | PENDING =>
      match list_remove self (put_queue res) with
      | Some q => (Return tt, set_put_queue q res)
      | None => (Raise (exc0 ValueError), res)
      end
    | _ => (Return tt, res)
    end
  end.

(** [Get.__exit__], also named [Get.cancel]: it reads the property
    [value]. *)
Definition Get_cancel (self : ref) (res : BaseResource) (w : world Σ)
    : outcome unit * BaseResource :=
  match requests w !! self with
  | None => (Raise dangling, res)
  | Some ev =>
    match value_property pending_value ev with
    | Raise exc => (Raise exc, res)
    | Return PENDING =>
      match list_remove self (get_queue res) with
      | Some q => (Return tt, set_get_queue q res)
      | None => (Raise (exc0 ValueError), res)
      end
    | Return _ => (Return tt, res)
    end
  end.

(** The calls that a program makes on one resource. *)
Inductive op :=
| op_put (args : Args)
| op_get (args : Args)
| op_put_cancel (request : ref)
| op_get_cancel (request : ref).

Definition exec1 (o : op) (st : BaseResource * world Σ)
    : BaseResource * world Σ :=
  let '(res, w) := st in
  match o with
  | op_put args => let '(_, res', w') := put args res w in (res', w')
  | op_get args => let '(_, res', w') := get args res w in (res', w')
  | op_put_cancel r => ((Put_cancel r res w).2, w)
  | op_get_cancel r => ((Get_cancel r res w).2, w)
  end.

Definition exec (ops : list op) (st : BaseResource * world Σ)
    : BaseResource * world Σ :=
  foldl (λ st o, exec1 o st) st ops.

(** The hook [hook] was offered the requests of [l], in order. *)
Definition offered (hook : ref → world Σ → world Σ) (l : list ref)
    (w : world Σ) : world Σ :=
  foldl (λ w r, hook r w) w l.

(** A hook triggers no request but the one it is given. *)
Definition hook_local (hook : ref → world Σ → world Σ) : Prop :=
  ∀ r r' w, r' ≠ r → is_pending w r' = true → is_pending (hook r w) r' = true.

(** A hook makes no triggered request pending again. *)
Definition hook_final (hook : ref → world Σ → world Σ) : Prop :=
  ∀ r r' w, is_pending w r' = false → is_pending (hook r w) r' = false.

(** The invariant of the two queues: the queued requests are pending,
    and no request is queued twice or in both queues. *)
Definition queues_ok (st : BaseResource * world Σ) : Prop :=
  (∀ r, r ∈ put_queue st.1 ++ get_queue st.1 → is_pending st.2 r = true) ∧
  NoDup (put_queue st.1 ++ get_queue st.1).
End base.

(** Modelled from the spec: the resource of the fairness property,
    "a resource of capacity 1 (trivial hooks: tryPut always succeeds if
    empty, tryGet succeeds if occupied)".  The state of the subclass is
    whether the slot is occupied; a hook that succeeds triggers the
    request with the value [None]. *)
Module capacity1.
Definition succeed (r : ref) (w : world bool) (occupied : bool) : world bool :=
    {| requests := alter (λ ev, with_value PyNone (with_ok (Some true) ev)) r (requests w);
       custom := occupied |}.

Definition _do_put (r : ref) (w : world bool) : world bool :=
    if custom w then w else succeed r w true.

Definition _do_get (r : ref) (w : world bool) : world bool :=
    if custom w then succeed r w false else w.

Definition no_args : unit → ref → bool → bool := λ _ _ occupied, occupied.

Definition put := put (Args := unit) no_args _do_put _do_get tt.
Definition get := get (Args := unit) no_args _do_put _do_get tt.

  (** An empty world: no request yet, the slot free. *)
Definition init : BaseResource * world bool :=
    (BaseResource_init, {| requests := ∅; custom := false |}).
End capacity1.
End resources.

(** ** [simpy.core] on float times and list objects

    The module [core] takes the clock on integers and the callback list
    of an event as a value held by the event.  Here [schedule], [step]
    and [run] are embedded once more with what Python has at these two
    places: the times are floats (binary64; [run] makes [float(until)]
    of a deadline that is no [int]), and [event.callbacks] is a reference
    to a list object in a store of its own, which every holder of a
    reference reaches and mutates in place. *)
Module core_py.
Import core.
Import PrimFloat.PrimFloatNotations.

(** A Python float. *)
Abbreviation float := PrimFloat.float.

(** A reference to a list object. *)
Abbreviation lref := nat.

(** An event object: [callbacks] is the list object or [None]; the other
    attributes are those of [core.Event]. *)
Record Event := mkEvent {
  callbacks : option lref;
  _ok : option bool;
  _value : value;
  _defused : bool
}.

(** A queue entry [(time, priority, eid, event)], the time a float. *)
Definition entry : Type := float * Z * nat * ref.

Definition entry_time (x : entry) : float := x.1.1.1.
Definition entry_event (x : entry) : ref := x.2.

(** [x < y] on entries, as Python compares tuples: the first component
    for which [==] fails decides, with [<].  On floats both are the
    IEEE comparisons. *)
Definition entry_lt (x y : entry) : bool :=
  let '(t1, p1, i1, _) := x in
  let '(t2, p2, i2, _) := y in
  if PrimFloat.eqb t1 t2 then
    if bool_decide (p1 = p2) then
      if bool_decide (i1 = i2) then false else bool_decide (i1 < i2)
    else bool_decide (p1 < p2)%Z
  else PrimFloat.ltb t1 t2.

(** The environment, the store of event objects and the store of list
    objects. *)
Record state := mkState {
  _now : float;
  _queue : list entry;
  _eid : nat;
  events : gmap ref Event;
  lists : gmap lref (list callback)
}.

Definition set_now (t : float) (s : state) : state :=
  {| _now := t; _queue := _queue s; _eid := _eid s;
     events := events s; lists := lists s |}.
Definition set_queue (q : list entry) (s : state) : state :=
  {| _now := _now s; _queue := q; _eid := _eid s;
     events := events s; lists := lists s |}.
Definition set_events (m : gmap ref Event) (s : state) : state :=
  {| _now := _now s; _queue := _queue s; _eid := _eid s;
     events := m; lists := lists s |}.
Definition set_lists (m : gmap lref (list callback)) (s : state) : state :=
  {| _now := _now s; _queue := _queue s; _eid := _eid s;
     events := events s; lists := m |}.

(** [Environment(initial_time)], over the objects that already exist. *)
Definition Environment (initial_time : float) (objs : gmap ref Event)
    (lsts : gmap lref (list callback)) : state :=
  {| _now := initial_time; _queue := []; _eid := 0; events := objs; lists := lsts |}.

(** [Environment.schedule]. *)
Definition schedule (event : ref) (priority : Z) (delay : float) (s : state) : state :=
  {| _now := _now s;
     _queue := heapq.heappush entry_lt (_queue s)
                 (PrimFloat.add (_now s) delay, priority, _eid s, event);
     _eid := S (_eid s);
     events := events s;
     lists := lists s |}.

(** Computations on the state that may raise. *)
Definition M (A : Type) : Type := state → outcome A * state.

Definition ret {A} (a : A) : M A := λ s, (Return a, s).
Definition raise {A} (exc : value) : M A := λ s, (Raise exc, s).
Definition bind {A B} (m : M A) (k : A → M B) : M B :=
  λ s, match m s with
       | (Return a, s') => k a s'
       | (Raise exc, s') => (Raise exc, s')
       end.

Global Instance M_ret : MRet M := @ret.
Global Instance M_bind : MBind M := λ A B k m, bind m k.

Definition getobj (r : ref) : M Event :=
  λ s, match events s !! r with
       | Some ev => (Return ev, s)
       | None => (Raise dangling, s)
       end.

Definition setobj (r : ref) (ev : Event) : M unit :=
  λ s, (Return tt, set_events (<[r := ev]> (events s)) s).

Definition with_callbacks (c : option lref) (ev : Event) : Event :=
  {| callbacks := c; _ok := _ok ev; _value := _value ev; _defused := _defused ev |}.
Definition with_ok (b : option bool) (ev : Event) : Event :=
  {| callbacks := callbacks ev; _ok := b; _value := _value ev; _defused := _defused ev |}.
Definition with_value (v : value) (ev : Event) : Event :=
  {| callbacks := callbacks ev; _ok := _ok ev; _value := v; _defused := _defused ev |}.

Definition setattr (r : ref) (f : Event → Event) : M unit :=
  ev ← getobj r; setobj r (f ev).

(** [self.now]. *)
Definition get_now : M float := λ s, (Return (_now s), s).

Definition call (f : state → state) : M unit := λ s, (Return tt, f s).

(** [Event(env)] as an expression: a new event object whose [callbacks]
    is a new, empty list object. *)
Definition Event_init : M ref :=
  λ s, let r := fresh (dom (events s)) in
       let l := fresh (dom (lists s)) in
       (Return r,
        set_events
          (<[r := {| callbacks := Some l; _ok := None; _value := PENDING;
                     _defused := false |}]> (events s))
          (set_lists (<[l := []]> (lists s)) s)).

(** [lst.append(cb)] on the list object [l]. *)
Definition list_append (l : lref) (cb : callback) : M unit :=
  λ s, match lists s !! l with
       | Some cbs => (Return tt, set_lists (<[l := cbs ++ [cb]]> (lists s)) s)
       | None => (Raise dangling, s)
       end.

(** [event.callbacks.append(cb)]; [None] has no [append]. *)
Definition callbacks_append (r : ref) (cb : callback) : M unit :=
  ev ← getobj r;
  match callbacks ev with
  | Some l => list_append l cb
  | None => raise (exc0 AttributeError)
  end.

(** What the surrounding program can do from a callback: call
    [env.schedule], assign the attributes of an event object (its
    [callbacks] reference among them), and make a list object or change
    one in place ([append], [remove], [clear], ...) through a reference
    to it. *)
Inductive action :=
| call_schedule (event : ref) (priority : Z) (delay : float)
| assign (event : ref) (obj : Event)
| store (l : lref) (cbs : list callback).

Definition perform (s : state) (a : action) : state :=
  match a with
  | call_schedule event priority delay => schedule event priority delay s
  | assign event obj => set_events (<[event := obj]> (events s)) s
  | store l cbs => set_lists (<[l := cbs]> (lists s)) s
  end.

(** The action goes through the reference [l] to a list object. *)
Definition action_uses (a : action) (l : lref) : Prop :=
  match a with
  | call_schedule _ _ _ => False
  | assign _ obj => callbacks obj = Some l
  | store l' _ => l' = l
  end.

(** Some event holds the list object [l] in its attribute [callbacks]. *)
Definition held (s : state) (l : lref) : Prop :=
  ∃ e ev, events s !! e = Some ev ∧ callbacks ev = Some l.

(** The list object [l] is as it was, and no event holds it. *)
Definition kept (l : lref) (cbs : list callback) (s : state) : Prop :=
  lists s !! l = Some cbs ∧ ¬ held s l.

(** The state after the pop of [step]. *)
Definition popped (t : float) (q : list entry) (s : state) : state :=
  set_queue q (set_now t s).

(** The state after [event.callbacks = None], [ev] being the object. *)
Definition detached (event : ref) (ev : Event) (s : state) : state :=
  set_events (<[event := with_callbacks None ev]> (events s)) s.

Section kernel.
(** The accessor [event.value] on a pending event, as in [core]. *)
Variable pending_value : outcome value.
(** The callables of the surrounding program: called on an event in a
    state, a callable performs some actions and then returns or raises. *)
Variable behaviour : nat → ref → state → list action * option value.

(** [event.ok]. *)
Definition Event_ok (ev : Event) : M bool :=
  match _ok ev with
  | Some b => ret b
  | None => raise (exc0 AttributeError)
  end.

(** [event.value]. *)
Definition Event_value (ev : Event) : M value :=
  λ s, (match _value ev with
        | PENDING => pending_value
        | v => Return v
        end, s).

(** [event.triggered]. *)
Definition Event_triggered (ev : Event) : bool :=
  match _value ev with
  | PENDING => false
  | _ => true
  end.

(** [raise v]: only exception instances can be raised. *)
Definition raise_value {A} (v : value) : M A :=
  match v with
  | Exc _ _ _ => raise v
  | _ => raise (exc0 TypeError)
  end.

(** [StopSimulation.callback]. *)
Definition StopSimulation_callback (event : ref) : M unit :=
  ev ← getobj event;
  ok ← Event_ok ev;
  if (ok : bool) then
    v ← Event_value ev;
    raise (Exc StopSimulation [v] None)
  else
    v ← Event_value ev;
    raise_value v.

(** [callback(event)]. *)
Definition invoke (cb : callback) (event : ref) : M unit :=
  match cb with
  | cb_StopSimulation => StopSimulation_callback event
  | Callable f => λ s,
      let '(acts, r) := behaviour f event s in
      let s' := foldl perform s acts in
      match r with
      | None => (Return tt, s')
      | Some exc => (Raise exc, s')
      end
  end.

(** [for callback in callbacks: callback(event)].  The iterator holds the
    list object and an index [i]; before each call it looks at the list
    as it is then, so what a call appends is called too, and the loop
    ends when the index has reached the length.  [calls] bounds the
    number of calls; [None] when it was not enough. *)
Fixpoint for_callbacks (calls : nat) (callbacks : lref) (i : nat) (event : ref)
    (s : state) : option (outcome unit * state) :=
  match lists s !! callbacks ≫= (.!! i) with
  | None => Some (Return tt, s)
  | Some cb =>
    match calls with
    | 0 => None
    | S calls' =>
      match invoke cb event s with
      | (Return _, s') => for_callbacks calls' callbacks (S i) event s'
      | (Raise exc, s') => Some (Raise exc, s')
      end
    end
  end.

(** The last statement of [step]. *)
Definition crash_check (event : ref) : M unit :=
  ev ← getobj event;
  match _ok ev with
  | None => raise (exc0 AttributeError)
  | Some ok =>
    if negb ok && negb (_defused ev) then
      match _value ev with
      | Exc cls args cause => raise (Exc cls args (Some (_value ev)))
      | _ => raise (exc0 AttributeError)
      end
    else ret tt
  end.

(** [step] after the pop: [callbacks, event.callbacks = event.callbacks,
    None], the loop over the list object, the check. *)
Definition process (calls : nat) (event : ref) (s : state)
    : option (outcome unit * state) :=
  match events s !! event with
  | None => Some (Raise dangling, s)
  | Some ev =>
    let s1 := detached event ev s in
    match callbacks ev with
    | None => Some (Raise (exc0 TypeError), s1)
    | Some callbacks =>
      match for_callbacks calls callbacks 0 event s1 with
      | Some (Return _, s2) => Some (crash_check event s2)
      | r => r
      end
    end
  end.

(** [Environment.step]. *)
Definition step (calls : nat) (s : state) : option (outcome unit * state) :=
  match heapq.heappop entry_lt (_queue s) with
  | None => Some (Raise (exc0 EmptySchedule), s)
  | Some ((t, _, _, event), q) => process calls event (popped t q s)
  end.

(** The argument [until] of [run]; a number is a float here, which
    [float(until)] hands back as it is. *)
Inductive until_t :=
| until_None
| until_number (at_ : float)
| until_Event (event : ref).

(** The statements of [run] before the loop. *)
Definition run_setup (until : until_t) : M (value + option ref) :=
  match until with
  | until_None => ret (inr None)
  | until_number at_ =>
      now ← get_now;
      if PrimFloat.leb at_ now then raise (Exc ValueError [PyStr 0] None)
      else
        until ← Event_init;
        setattr until (with_ok (Some true)) ;;
        setattr until (with_value PyNone) ;;
        now ← get_now;
        call (schedule until URGENT (PrimFloat.sub at_ now)) ;;
        callbacks_append until cb_StopSimulation ;;
        ret (inr (Some until))
  | until_Event until =>
      ev ← getobj until;
      match callbacks ev with
      | None => v ← Event_value ev; ret (inl v)
      | Some _ =>
          callbacks_append until cb_StopSimulation ;;
          ret (inr (Some until))
      end
  end.

(** [while True: self.step()], for at most [fuel] steps. *)
Fixpoint run_loop (calls fuel : nat) (s : state) : option (value * state) :=
  match fuel with
  | 0 => None
  | S fuel' =>
    match step calls s with
    | None => None
    | Some (Return _, s') => run_loop calls fuel' s'
    | Some (Raise exc, s') => Some (exc, s')
    end
  end.

(** The [except] clauses of [run]. *)
Definition run_except (until : option ref) (exc : value) : M value :=
  match exc with
  | Exc StopSimulation args _ =>
      match args with
      | v :: _ => ret v
      | [] => raise (exc0 IndexError)
      end
  | Exc EmptySchedule _ _ =>
      match until with
      | Some u =>
          ev ← getobj u;
          if Event_triggered ev then raise (exc0 AssertionError)
          else raise (Exc RuntimeError [PyStr 1] None)
      | None => ret PyNone
      end
  | _ => raise exc
  end.

(** [Environment.run]. *)
Definition run (calls fuel : nat) (until : until_t) (s : state)
    : option (outcome value * state) :=
  match run_setup until s with
  | (Raise exc, s') => Some (Raise exc, s')
  | (Return (inl v), s') => Some (Return v, s')
  | (Return (inr u), s') =>
    match run_loop calls fuel s' with
    | None => None
    | Some (exc, s'') => Some (run_except u exc s'')
    end
  end.

(** The calls that the loop of [step] makes: each callback with the
    state it is called in. *)
Fixpoint invocations (calls : nat) (callbacks : lref) (i : nat) (event : ref)
    (s : state) : list (callback * state) :=
  match lists s !! callbacks ≫= (.!! i) with
  | None => []
  | Some cb =>
    match calls with
    | 0 => []
    | S calls' =>
      (cb, s) ::
      match invoke cb event s with
      | (Return _, s') => invocations calls' callbacks (S i) event s'
      | (Raise _, _) => []
      end
    end
  end.

(** The callables reach a list object only through an event that holds
    it: called in a state in which no event holds an existing list
    object, a callable does not go through a reference to that object.
    (It may make new list objects and use those that events hold.) *)
Definition via_events : Prop :=
  ∀ f event s a l,
    a ∈ (behaviour f event s).1 → action_uses a l →
    is_Some (lists s !! l) → held s l.

End kernel.

(** ** Sample objects and programs *)
Module sample.
Import PrimFloat.
Local Set Warnings "-inexact-float".

(** A property [value] that raises on a pending event. *)
Definition value_raises : outcome value := Raise (exc0 AttributeError).

(** A program without callables of its own. *)
Definition no_callables : nat → ref → state → list action * option value :=
  λ _ _ _, ([], None).

(** The callable [f] does [event.callbacks.append(f)]. *)
Definition appends_through_event : nat → ref → state → list action * option value :=
  λ f event s,
    match events s !! event ≫= callbacks with
    | Some l => ([store l (default [] (lists s !! l) ++ [Callable f])], None)
    | None => ([], Some (exc0 AttributeError))
    end.

(** The callable [f] has kept a reference [lst] to the list object [l]
    and does [if len(lst) < 2: lst.append(f)]. *)
Definition appends_through_reference (l : lref)
    : nat → ref → state → list action * option value :=
  λ f event s,
    match lists s !! l with
    | Some cbs =>
        if bool_decide (length cbs < 2) then ([store l (cbs ++ [Callable f])], None)
        else ([], None)
    | None => ([], Some dangling)
    end.

(** An event that has succeeded with [None] and whose callbacks are the
    list object [l]. *)
Definition succeeded (l : lref) : Event :=
  {| callbacks := Some l; _ok := Some true; _value := PyNone; _defused := false |}.

(** Event 1 with the one callback [Callable 0], scheduled now. *)
Definition one : state :=
  schedule 1 NORMAL 0%float
    (Environment 0%float (<[1 := succeeded 0]> ∅) (<[0 := [Callable 0]]> ∅)).

End sample.
End core_py.

(** * Theorems *)

(** ** [heapq]: [heappush] and [heappop] keep the heap order and the
    items, and the root of a heap is a least item. *)
Module heapq_facts.
Import heapq.
Section order.
Context {A : Type}.
Variable lt : A → A → bool.
Hypothesis lt_le : ∀ x y, lt x y = true → le lt x y.
Hypothesis le_trans : ∀ x y z, le lt x y → le lt y z → le lt x z.

Local Abbreviation le := (heapq.le lt).
Local Abbreviation heap_ordered := (heapq.heap_ordered lt).
Local Abbreviation ordered_at := (heapq.ordered_at lt).
Local Abbreviation grands_ok := (heapq.grands_ok lt).
Local Abbreviation up_inv := (heapq.up_inv lt).
Local Abbreviation down_inv := (heapq.down_inv lt).

Lemma parent_lt j : 0 < j → parent j < j.
Proof. unfold parent. intros. apply Nat.Div0.div_lt_upper_bound; lia. Qed.

Lemma parent_spec j : 0 < j → j = 2 * parent j + 1 ∨ j = 2 * parent j + 2.
Proof.
  unfold parent. intros.
  pose proof (Nat.div_mod_eq (j - 1) 2).
  pose proof (Nat.mod_upper_bound (j - 1) 2). lia.
Qed.

Lemma parent_left i : parent (2 * i + 1) = i.
Proof.
  unfold parent. replace (2 * i + 1 - 1) with (i * 2) by lia.
  apply Nat.div_mul. lia.
Qed.

Lemma parent_right i : parent (2 * i + 2) = i.
Proof.
  unfold parent. replace (2 * i + 2 - 1) with (1 + i * 2) by lia.
  rewrite Nat.div_add by lia. reflexivity.
Qed.

Lemma le_refl x : le x x.
Proof.
  unfold le. destruct (lt x x) eqn:E; [|done]. apply lt_le in E as E'.
  unfold le in E'. congruence.
Qed.

Lemma root_minimal h x :
  heap_ordered h → h !! 0 = Some x → ∀ y, y ∈ h → le x y.
Proof.
  intros Hh Hx y [j Hj]%list_elem_of_lookup. revert y Hj.
  induction (lt_wf j) as [j _ IH]. intros y Hj.
  destruct (decide (j = 0)) as [->|].
  { rewrite Hx in Hj. injection Hj as ->. apply le_refl. }
  assert (0 < j) as Hpos by lia.
  pose proof (parent_lt j Hpos) as Hp.
  destruct (lookup_lt_is_Some_2 h (parent j)) as [z Hz].
  { apply lookup_lt_Some in Hj. lia. }
  eapply le_trans; [apply (IH (parent j) Hp z Hz)|].
  by apply (Hh j Hpos z y).
Qed.

Lemma up_inv_swap heap pos newitem par :
  0 < pos → pos < length heap →
  heap !! parent pos = Some par →
  lt newitem par = true →
  up_inv (<[pos := newitem]> heap) pos →
  up_inv (<[parent pos := newitem]> (<[pos := par]> heap)) (parent pos).
Proof.
  intros Hpos Hlen Hpar Hlt [Hord Hgr].
  pose proof (parent_lt pos Hpos) as Hpp.
  assert (le newitem par) as Hnp by auto.
  assert (∀ k, <[pos := newitem]> heap !! k =
               if decide (k = pos) then Some newitem else heap !! k) as Hcur.
  { intros k. rewrite list_lookup_insert.
    destruct (decide (k = pos)) as [->|]; [by rewrite decide_True|].
    rewrite decide_False; [done|]. intros [? _]. congruence. }
  assert (∀ k, <[parent pos := newitem]> (<[pos := par]> heap) !! k =
               if decide (k = parent pos) then Some newitem
               else if decide (k = pos) then Some par else heap !! k) as Hnew.
  { intros k. rewrite !list_lookup_insert, length_insert.
    destruct (decide (k = parent pos)) as [->|]; [rewrite decide_True; [done|lia]|].
    rewrite decide_False by (intros [? _]; congruence).
    destruct (decide (k = pos)) as [->|]; [by rewrite decide_True|].
    rewrite decide_False; [done|]. intros [? _]. congruence. }
  assert (∀ j y, 0 < j → j ≠ pos → heap !! j = Some y → parent j = parent pos →
            le par y) as Hsib.
  { intros j y Hj Hne Hy Hpj. apply (Hord j Hj Hne par y).
    - rewrite Hcur, Hpj. case_decide; [lia|done].
    - rewrite Hcur. by case_decide. }
  split.
  - intros j Hj Hne x y. rewrite !Hnew.
    pose proof (parent_lt j Hj).
    destruct (decide (j = parent pos)); [done|].
    destruct (decide (j = pos)) as [->|Hjp].
    + rewrite decide_True by done. intros [= <-] [= <-]. exact Hnp.
    + destruct (decide (parent j = parent pos)) as [Heq|Hnp'].
      * intros [= <-] Hy. eapply le_trans; [exact Hnp|]. eauto.
      * destruct (decide (parent j = pos)) as [Heq|Hnp''].
        -- intros [= <-] Hy. apply (Hgr Hpos j par y Hj Heq).
           ++ rewrite Hcur. case_decide; [lia|done].
           ++ rewrite Hcur. by case_decide.
        -- intros Hx Hy. apply (Hord j Hj Hjp x y).
           ++ rewrite Hcur. by case_decide.
           ++ rewrite Hcur. by case_decide.
  - intros Hpp0 c x y Hc Hpc. rewrite !Hnew.
    pose proof (parent_lt (parent pos) Hpp0).
    pose proof (parent_lt c Hc).
    rewrite decide_False by lia. rewrite decide_False by lia.
    intros Hx.
    assert (le x par) as Hxp.
    { apply (Hord (parent pos) Hpp0 ltac:(lia) x par).
      - rewrite Hcur. case_decide; [lia|done].
      - rewrite Hcur. case_decide; [lia|done]. }
    rewrite decide_False by lia.
    destruct (decide (c = pos)) as [->|Hcp].
    + intros [= <-]. exact Hxp.
    + intros Hy. eapply le_trans; [exact Hxp|]. eauto.
Qed.

Lemma _siftdown_loop_spec n heap pos newitem :
  pos ≤ n → pos < length heap →
  up_inv (<[pos := newitem]> heap) pos →
  heap_ordered (_siftdown_loop lt n heap 0 pos newitem) ∧
  _siftdown_loop lt n heap 0 pos newitem ≡ₚ <[pos := newitem]> heap.
Proof.
  revert heap pos. induction n as [|n IH]; intros heap pos Hn Hlen Hinv.
  - simpl. split; [|done]. intros j Hj. apply Hinv; lia.
  - cbn [_siftdown_loop]. case_bool_decide as Hpos.
    + pose proof (parent_lt pos Hpos) as Hpp. fold (parent pos).
      destruct (lookup_lt_is_Some_2 heap (parent pos)) as [par Hpar]; [lia|].
      rewrite Hpar. destruct (lt newitem par) eqn:Hlt.
      * destruct (IH (<[pos := par]> heap) (parent pos)) as [H1 H2].
        { lia. } { rewrite length_insert. lia. }
        { by apply up_inv_swap. }
        split; [done|]. rewrite H2.
        rewrite <-(list_insert_insert_eq heap pos par newitem).
        apply Permutation_insert_swap.
        -- apply list_lookup_insert_eq. done.
        -- rewrite list_lookup_insert_ne by lia. done.
      * split; [|done]. intros j Hj.
        destruct (decide (j = pos)) as [->|]; [|by apply Hinv].
        intros x y. rewrite list_lookup_insert_ne by lia.
        rewrite list_lookup_insert_eq by done. rewrite Hpar.
        intros [= <-] [= <-]. exact Hlt.
    + split; [|done]. intros j Hj. apply Hinv; lia.
Qed.

Lemma _siftdown_spec heap pos :
  pos < length heap → up_inv heap pos →
  heap_ordered (_siftdown lt heap 0 pos) ∧ _siftdown lt heap 0 pos ≡ₚ heap.
Proof.
  intros Hlen Hinv. unfold _siftdown.
  destruct (lookup_lt_is_Some_2 heap pos Hlen) as [x Hx]. rewrite Hx.
  rewrite <-(list_insert_id heap pos x Hx) in Hinv.
  destruct (_siftdown_loop_spec pos heap pos x) as [H1 H2]; [lia|done|done|].
  split; [done|]. by rewrite H2, list_insert_id.
Qed.

Lemma heappush_spec heap item :
  heap_ordered heap →
  heap_ordered (heappush lt heap item) ∧ heappush lt heap item ≡ₚ item :: heap.
Proof.
  intros Hh. unfold heappush.
  destruct (_siftdown_spec (heap ++ [item]) (length (heap ++ [item]) - 1)) as [H1 H2].
  { rewrite length_app. simpl. lia. }
  { rewrite length_app. simpl. replace (length heap + 1 - 1) with (length heap) by lia.
    split.
    - intros j Hj Hne x y Hx Hy.
      assert (j < length heap).
      { apply lookup_lt_Some in Hy. rewrite length_app in Hy. simpl in Hy. lia. }
      pose proof (parent_lt j Hj).
      rewrite lookup_app_l in Hx, Hy by lia. by apply (Hh j Hj).
    - intros Hpos c x y Hc Hpc Hx Hy.
      apply lookup_lt_Some in Hy. rewrite length_app in Hy. simpl in Hy.
      pose proof (parent_spec c Hc). lia. }
  split; [done|]. rewrite H2. by rewrite Permutation_app_comm.
Qed.

Lemma down_inv_swap heap pos c newitem child :
  pos < length heap → 0 < c → parent c = pos →
  heap !! c = Some child →
  (∀ j y, 0 < j → parent j = pos → j ≠ c → heap !! j = Some y → le child y) →
  down_inv (<[pos := newitem]> heap) pos →
  down_inv (<[c := newitem]> (<[pos := child]> heap)) c.
Proof.
  intros Hlen Hc Hpc Hchild Hsmall [Hord Hgr].
  pose proof (parent_lt c Hc) as Hcp.
  pose proof (lookup_lt_Some _ _ _ Hchild) as Hclen.
  assert (∀ k, <[pos := newitem]> heap !! k =
               if decide (k = pos) then Some newitem else heap !! k) as Hcur.
  { intros k. rewrite list_lookup_insert.
    destruct (decide (k = pos)) as [->|]; [by rewrite decide_True|].
    rewrite decide_False; [done|]. intros [? _]. congruence. }
  assert (∀ k, <[c := newitem]> (<[pos := child]> heap) !! k =
               if decide (k = c) then Some newitem
               else if decide (k = pos) then Some child else heap !! k) as Hnew.
  { intros k. rewrite !list_lookup_insert, length_insert.
    destruct (decide (k = c)) as [->|]; [by rewrite decide_True|].
    rewrite decide_False by (intros [? _]; congruence).
    destruct (decide (k = pos)) as [->|]; [by rewrite decide_True|].
    rewrite decide_False; [done|]. intros [? _]. congruence. }
  split.
  - intros j Hj Hjc Hpjc x y. rewrite !Hnew.
    pose proof (parent_lt j Hj).
    rewrite (decide_False (P := parent j = c)) by done.
    rewrite (decide_False (P := j = c)) by done.
    destruct (decide (j = pos)) as [->|Hjp].
    + rewrite decide_False by lia. intros Hx [= <-].
      apply (Hgr Hj c x child Hc Hpc).
      * rewrite Hcur. rewrite decide_False by lia. done.
      * rewrite Hcur. rewrite decide_False by lia. done.
    + destruct (decide (parent j = pos)) as [Heq|Hne].
      * intros [= <-] Hy. by apply (Hsmall j y).
      * intros Hx Hy. apply (Hord j Hj Hjp Hne x y).
        -- rewrite Hcur. by rewrite decide_False.
        -- rewrite Hcur. by rewrite decide_False.
  - intros _ d x y Hd Hpd. rewrite !Hnew.
    pose proof (parent_lt d Hd).
    rewrite (decide_False (P := parent c = c)) by lia.
    rewrite (decide_True (P := parent c = pos)) by done.
    rewrite (decide_False (P := d = c)) by lia.
    rewrite (decide_False (P := d = pos)) by lia.
    intros [= <-] Hy.
    apply (Hord d Hd ltac:(lia) ltac:(lia) child y).
    + rewrite Hcur, Hpd. rewrite decide_False by lia. done.
    + rewrite Hcur. rewrite decide_False by lia. done.
Qed.

Lemma _siftup_loop_spec n heap pos newitem :
  length heap ≤ pos + n → pos < length heap →
  down_inv (<[pos := newitem]> heap) pos →
  ∃ heap' pos',
    _siftup_loop lt n heap (length heap) pos = (heap', pos') ∧
    pos ≤ pos' ∧ pos' < length heap ∧ length heap' = length heap ∧
    up_inv (<[pos' := newitem]> heap') pos' ∧
    <[pos' := newitem]> heap' ≡ₚ <[pos := newitem]> heap.
Proof.
  revert heap pos. induction n as [|n IH]; intros heap pos Hn Hlen Hinv; [lia|].
  cbn [_siftup_loop]. case_bool_decide as Hleft.
  - set (c := if bool_decide (2 * pos + 1 + 1 < length heap)
                  && negb (lt_at lt heap (2 * pos + 1) (2 * pos + 1 + 1))
              then 2 * pos + 1 + 1 else 2 * pos + 1).
    assert (c < length heap ∧ 0 < c ∧ parent c = pos ∧
            ∀ j y, 0 < j → parent j = pos → j ≠ c → heap !! j = Some y →
                   ∀ child, heap !! c = Some child → le child y) as (Hc & Hc0 & Hpc & Hsmall).
    { subst c. destruct (lookup_lt_is_Some_2 heap (2 * pos + 1) Hleft) as [l Hl].
      case_bool_decide as Hright; cbn [andb negb].
      - destruct (lookup_lt_is_Some_2 heap (2 * pos + 1 + 1) Hright) as [r Hr].
        unfold lt_at. rewrite Hl, Hr.
        destruct (lt l r) eqn:Hlr; cbn [andb negb].
        + split; [done|]. split; [lia|]. split; [apply parent_left|].
          intros j y Hj Hpj Hne Hy child Hch.
          pose proof (parent_spec j Hj).
          assert (j = 2 * pos + 1 + 1) as -> by lia.
          rewrite Hl in Hch. rewrite Hr in Hy. simplify_eq. by apply lt_le.
        + split; [done|]. split; [lia|].
          split; [replace (2 * pos + 1 + 1) with (2 * pos + 2) by lia; apply parent_right|].
          intros j y Hj Hpj Hne Hy child Hch.
          pose proof (parent_spec j Hj).
          assert (j = 2 * pos + 1) as -> by lia.
          rewrite Hr in Hch. rewrite Hl in Hy. simplify_eq. exact Hlr.
      - split; [done|]. split; [lia|]. split; [apply parent_left|].
        intros j y Hj Hpj Hne Hy child Hch.
        pose proof (parent_spec j Hj). apply lookup_lt_Some in Hy. lia. }
    destruct (lookup_lt_is_Some_2 heap c Hc) as [child Hchild]. rewrite Hchild.
    pose proof (parent_lt c Hc0) as Hcp.
    destruct (IH (<[pos := child]> heap) c) as (heap' & pos' & Heq & H1 & H2 & H3 & H4 & H5).
    { rewrite length_insert. lia. } { by rewrite length_insert. }
    { apply down_inv_swap; try done. intros j y ????. by apply (Hsmall j y). }
    rewrite length_insert in Heq, H2, H3.
    exists heap', pos'. split; [done|]. split; [lia|]. split; [done|]. split; [done|].
    split; [done|]. rewrite H5.
    rewrite <-(list_insert_insert_eq heap pos child newitem).
    apply Permutation_insert_swap.
    + apply list_lookup_insert_eq. done.
    + rewrite list_lookup_insert_ne by lia. done.
  - exists heap, pos. split; [done|]. split; [done|]. split; [done|]. split; [done|].
    split; [|done]. destruct Hinv as [Hord Hgr]. split; [|done].
    intros j Hj Hne. destruct (decide (parent j = pos)) as [Heq|]; [|by apply Hord].
    intros x y _ Hy. apply lookup_lt_Some in Hy. rewrite length_insert in Hy.
    pose proof (parent_spec j Hj). lia.
Qed.

Lemma _siftup_spec heap :
  0 < length heap → down_inv heap 0 →
  heap_ordered (_siftup lt heap 0) ∧ _siftup lt heap 0 ≡ₚ heap.
Proof.
  intros Hlen Hinv. unfold _siftup.
  destruct (lookup_lt_is_Some_2 heap 0 Hlen) as [x Hx]. rewrite Hx.
  rewrite <-(list_insert_id heap 0 x Hx) in Hinv.
  destruct (_siftup_loop_spec (length heap - 0) heap 0 x)
    as (heap' & pos' & Heq & H1 & H2 & H3 & H4 & H5); [lia|done|done|].
  rewrite Heq.
  destruct (_siftdown_spec (<[pos' := x]> heap') pos') as [H6 H7].
  { rewrite length_insert. lia. } { done. }
  split; [done|]. by rewrite H7, H5, list_insert_id.
Qed.

Lemma heappop_spec heap :
  heap_ordered heap → heap ≠ [] →
  ∃ x heap', heappop lt heap = Some (x, heap') ∧ heap !! 0 = Some x ∧
             heap_ordered heap' ∧ heap ≡ₚ x :: heap'.
Proof.
  intros Hh Hne. unfold heappop.
  destruct (last heap) as [lastelt|] eqn:Hlast; [|by apply last_None in Hlast].
  apply last_Some in Hlast as [l ->].
  rewrite length_app. simpl. replace (length l + 1 - 1) with (length l) by lia.
  rewrite take_app_length.
  destruct l as [|returnitem l].
  - exists lastelt, []. split; [done|]. split; [done|]. split; [|done].
    intros j Hj x y _ Hy. apply lookup_lt_Some in Hy. simpl in Hy. lia.
  - destruct (_siftup_spec (<[0 := lastelt]> (returnitem :: l))) as [H1 H2].
    { simpl. lia. }
    { split; [|intros ?; lia]. intros j Hj _ Hpj x y.
      pose proof (parent_lt j Hj).
      rewrite !list_lookup_insert_ne by lia. intros Hx Hy.
      apply (Hh j Hj x y).
      - apply lookup_app_l_Some. done.
      - apply lookup_app_l_Some. done. }
    eexists _, _. split; [done|]. split; [done|]. split; [done|].
    rewrite H2. simpl. f_equiv. by rewrite Permutation_app_comm.
Qed.

Lemma heappop_empty : heappop lt [] = None.
Proof. done. Qed.

End order.
End heapq_facts.

(** ** [simpy.core]: the queue *)
Module core_facts.
Import heapq core.

Lemma entry_lt_spec x y : entry_lt x y = true ↔ key_lt x y.
Proof.
  destruct x as [[[t1 p1] i1] e1], y as [[[t2 p2] i2] e2].
  unfold entry_lt, key_lt, entry_time, entry_priority, entry_eid. simpl.
  repeat case_bool_decide; split; try lia; try done.
Qed.

Lemma entry_le_spec x y : le entry_lt x y ↔ key_le x y.
Proof.
  unfold le. rewrite <-not_true_iff_false, entry_lt_spec.
  unfold key_lt, key_le. lia.
Qed.

Lemma entry_lt_le x y : entry_lt x y = true → le entry_lt x y.
Proof. rewrite entry_lt_spec, entry_le_spec. unfold key_lt, key_le. lia. Qed.

Lemma entry_le_trans x y z :
  le entry_lt x y → le entry_lt y z → le entry_lt x z.
Proof. rewrite !entry_le_spec. unfold key_le. lia. Qed.

Lemma key_le_time x y : key_le x y → (entry_time x ≤ entry_time y)%Z.
Proof. unfold key_le. lia. Qed.

Lemma key_lt_not_le x y : key_lt x y → ¬ key_le y x.
Proof. unfold key_lt, key_le. lia. Qed.

(** [heappush] and [heappop] on entries. *)
Lemma entry_heappush q x :
  heap_ordered entry_lt q →
  heap_ordered entry_lt (heappush entry_lt q x) ∧ heappush entry_lt q x ≡ₚ x :: q.
Proof. apply heapq_facts.heappush_spec; [apply entry_lt_le|apply entry_le_trans]. Qed.

Lemma entry_heappop q :
  heap_ordered entry_lt q → q ≠ [] →
  ∃ x q', heappop entry_lt q = Some (x, q') ∧ x ∈ q ∧
          (∀ y, y ∈ q → key_le x y) ∧
          heap_ordered entry_lt q' ∧ q ≡ₚ x :: q'.
Proof.
  intros Hq Hne.
  destruct (heapq_facts.heappop_spec entry_lt entry_lt_le entry_le_trans q Hq Hne)
    as (x & q' & Hpop & H0 & Hq' & Hperm).
  exists x, q'. split; [done|]. split; [by eapply list_elem_of_lookup_2|].
  split; [|done]. intros y Hy. apply entry_le_spec.
  by apply (heapq_facts.root_minimal entry_lt entry_lt_le entry_le_trans q).
Qed.

Lemma entry_heappop_nil q : heappop entry_lt q = None ↔ q = [].
Proof.
  unfold heappop. split; [|by intros ->].
  destruct (last q) eqn:E; [|by apply last_None in E].
  by destruct (take _ _).
Qed.

Lemma queue_ok_Environment t objs : queue_ok (Environment t objs).
Proof.
  split; [|split].
  - intros j Hj x y _ Hy. done.
  - intros x Hx. by apply elem_of_nil in Hx.
  - constructor.
Qed.

Lemma schedule_queue s event priority delay :
  heap_ordered entry_lt (_queue s) →
  _queue (schedule event priority delay s)
    ≡ₚ ((_now s + delay)%Z, priority, _eid s, event) :: _queue s.
Proof. intros Hq. simpl. by apply entry_heappush. Qed.

Lemma schedule_queue_ok s event priority delay :
  queue_ok s → queue_ok (schedule event priority delay s).
Proof.
  intros (Hq & Hlt & Hnd).
  destruct (entry_heappush (_queue s) ((_now s + delay)%Z, priority, _eid s, event) Hq)
    as [H1 H2].
  split; [done|]. split.
  - intros x. simpl. rewrite H2. intros [->|Hx]%elem_of_cons; simpl.
    + unfold entry_eid. simpl. lia.
    + apply Hlt in Hx. lia.
  - simpl. rewrite H2. rewrite fmap_cons. apply NoDup_cons. split; [|done].
    intros (y & Hy & Hin)%list_elem_of_fmap. apply Hlt in Hin.
    unfold entry_eid in Hy at 1. simpl in Hy. lia.
Qed.

Lemma schedule_queue_future s event priority delay :
  heap_ordered entry_lt (_queue s) → (0 ≤ delay)%Z →
  queue_future s → queue_future (schedule event priority delay s).
Proof.
  intros Hq Hd Hf x. rewrite schedule_queue by done. simpl.
  intros [->|Hx]%elem_of_cons.
  - unfold entry_time. simpl. lia.
  - by apply Hf.
Qed.

Lemma performed_facts acts s :
  queue_ok s →
  let s' := foldl perform s acts in
  queue_ok s' ∧ _now s' = _now s ∧ _eid s ≤ _eid s' ∧
  (∀ x, x ∈ _queue s → x ∈ _queue s') ∧
  (∀ x, x ∈ _queue s' → x ∈ _queue s ∨ _eid s ≤ entry_eid x) ∧
  (Forall action_delay_ok acts → queue_future s → queue_future s').
Proof.
  revert s. induction acts as [|a acts IH]; intros s Hok; simpl.
  { split; [done|]. split; [done|]. split; [lia|]. split; [auto|]. split; auto. }
  assert (queue_ok (perform s a) ∧ _now (perform s a) = _now s ∧
          _eid s ≤ _eid (perform s a) ∧
          (∀ x, x ∈ _queue s → x ∈ _queue (perform s a)) ∧
          (∀ x, x ∈ _queue (perform s a) → x ∈ _queue s ∨ _eid s ≤ entry_eid x) ∧
          (action_delay_ok a → queue_future s → queue_future (perform s a)))
    as (H1 & H2 & H3 & H4 & H5 & H6).
  { destruct a as [event priority delay|event obj]; simpl.
    - split; [by apply schedule_queue_ok|]. split; [done|]. split; [lia|].
      pose proof (schedule_queue s event priority delay (proj1 Hok)) as Hp.
      simpl in Hp. split; [|split].
      + intros x Hx. rewrite Hp. by right.
      + intros x. rewrite Hp. intros [->|Hx]%elem_of_cons; [right|by left].
        unfold entry_eid. simpl. lia.
      + intros Hd Hf. by apply (schedule_queue_future s event priority delay (proj1 Hok)).
    - split; [exact Hok|]. split; [done|]. split; [lia|]. split; [auto|]. split; auto. }
  destruct (IH (perform s a) H1) as (I1 & I2 & I3 & I4 & I5 & I6).
  split; [done|]. split; [congruence|]. split; [lia|]. split; [auto|]. split.
  - intros x Hx. destruct (I5 x Hx) as [Hx'|]; [|right; lia].
    destruct (H5 x Hx'); [by left|right; lia].
  - intros Hall Hf. inversion Hall; subst. auto.
Qed.

Section scheduler.
Variable pending_value : outcome value.
Variable behaviour : nat → ref → state → list action * option value.

Local Abbreviation performs := (@core.performs behaviour).
Local Abbreviation invoke := (core.invoke pending_value behaviour).
Local Abbreviation for_callbacks := (core.for_callbacks pending_value behaviour).
Local Abbreviation process := (core.process pending_value behaviour).
Local Abbreviation step := (core.step pending_value behaviour).
Local Abbreviation exec := (core.exec pending_value behaviour).
Local Abbreviation exec1 := (core.exec1 pending_value behaviour).
Local Abbreviation fired := (core.fired pending_value behaviour).
Local Abbreviation delays_ok := (core.behaviour_delays_ok behaviour).

Lemma performs_pure {A} (m : M A) :
  (∀ s, (m s).2 = s) → performs m.
Proof. intros H s. exists []. split; [by rewrite H|by constructor]. Qed.

Lemma performs_bind {A B} (m : M A) (k : A → M B) :
  performs m → (∀ a, performs (k a)) → performs (m ≫= k).
Proof.
  intros Hm Hk s. destruct (Hm s) as (acts1 & E1 & D1).
  unfold mbind, M_bind, bind. destruct (m s) as [[a|exc] s1]; simpl in *.
  - destruct (Hk a s1) as (acts2 & E2 & D2). exists (acts1 ++ acts2).
    split; [by rewrite foldl_app, <-E1|].
    intros Hd. apply Forall_app. auto.
  - by exists acts1.
Qed.

Lemma performs_getobj r : performs (getobj r).
Proof. apply performs_pure. intros s. unfold getobj. by destruct (_ !! _). Qed.

Lemma performs_setobj r ev : performs (setobj r ev).
Proof.
  intros s. exists [assign r ev]. split; [done|].
  intros _. by repeat constructor.
Qed.

Lemma performs_StopSimulation_callback event :
  performs (StopSimulation_callback pending_value event).
Proof.
  apply performs_pure. intros s. unfold StopSimulation_callback.
  unfold mbind, M_bind, bind, getobj, Event_ok, Event_value, value_property, raise_value, ret, raise.
  destruct (events s !! event) as [ev|]; [|done]. simpl.
  destruct (_ok ev) as [[]|]; [| |done]; simpl.
  - by destruct (_value ev), pending_value.
  - destruct (_value ev); try done. by destruct pending_value as [[]|].
Qed.

Lemma performs_invoke cb event : performs (invoke cb event).
Proof.
  destruct cb as [|f]; [apply performs_StopSimulation_callback|].
  intros s. simpl. exists (behaviour f event s).1.
  split; [|intros Hd; apply Hd].
  destruct (behaviour f event s) as [acts [exc|]]; done.
Qed.

Lemma performs_for_callbacks cbs event : performs (for_callbacks cbs event).
Proof.
  induction cbs as [|cb cbs IH]; simpl.
  - by apply performs_pure.
  - apply performs_bind; [apply performs_invoke|done].
Qed.

Lemma performs_crash_check event : performs (crash_check event).
Proof.
  apply performs_pure. intros s. unfold crash_check.
  unfold mbind, M_bind, bind, getobj, ret, raise.
  destruct (events s !! event) as [ev|]; [|done]. simpl.
  destruct (_ok ev) as [[]|]; try done. simpl.
  destruct (_defused ev); simpl; [done|]. by destruct (_value ev).
Qed.

Lemma performs_process event : performs (process event).
Proof.
  unfold core.process. apply performs_bind; [apply performs_getobj|].
  intros ev. apply performs_bind; [apply performs_setobj|]. intros _.
  destruct (callbacks ev) as [cbs|]; [|by apply performs_pure].
  apply performs_bind; [apply performs_for_callbacks|].
  intros _. apply performs_crash_check.
Qed.

(** What [step] does to the queue and the clock. *)
Lemma step_empty s : _queue s = [] → step s = (Raise (exc0 EmptySchedule), s).
Proof. intros E. unfold core.step. by rewrite E. Qed.

Lemma step_pop s :
  queue_ok s → _queue s ≠ [] →
  ∃ x q, heappop entry_lt (_queue s) = Some (x, q) ∧
    x ∈ _queue s ∧ (∀ y, y ∈ _queue s → key_le x y) ∧ _queue s ≡ₚ x :: q ∧
    queue_ok (set_queue q (set_now (entry_time x) s)) ∧
    step s = process (entry_event x) (set_queue q (set_now (entry_time x) s)).
Proof.
  intros (Hq & Hlt & Hnd) Hne.
  destruct (entry_heappop (_queue s) Hq Hne) as (x & q & Hpop & Hin & Hmin & Hq' & Hperm).
  exists x, q. split; [done|]. split; [done|]. split; [done|]. split; [done|].
  split.
  - split; [done|]. simpl. split.
    + intros y Hy. apply Hlt. rewrite Hperm. by right.
    + rewrite Hperm, fmap_cons in Hnd. by apply NoDup_cons in Hnd as [_ ?].
  - unfold core.step. rewrite Hpop. by destruct x as [[[t p] i] e].
Qed.

Lemma step_facts s :
  queue_ok s →
  let s' := (step s).2 in
  queue_ok s' ∧ _eid s ≤ _eid s' ∧
  (∀ y, y ∈ _queue s → Some y = next_entry s ∨ y ∈ _queue s') ∧
  (∀ y, y ∈ _queue s' → y ∈ _queue s ∨ _eid s ≤ entry_eid y) ∧
  (∀ x, next_entry s = Some x →
        _now s' = entry_time x ∧ x ∈ _queue s ∧ ∀ y, y ∈ _queue s → key_le x y) ∧
  (delays_ok → queue_future s → queue_future s' ∧ (_now s ≤ _now s')%Z).
Proof.
  intros Hok. destruct (decide (_queue s = [])) as [E|Hne].
  { rewrite step_empty by done. simpl. split; [done|]. split; [done|].
    split; [auto|]. split; [auto|]. split.
    - unfold next_entry. rewrite E. done.
    - intros _ Hf. split; [done|lia]. }
  destruct (step_pop s Hok Hne) as (x & q & Hpop & Hin & Hmin & Hperm & Hok1 & Hstep).
  rewrite Hstep.
  destruct (performs_process (entry_event x) (set_queue q (set_now (entry_time x) s)))
    as (acts & -> & Hd).
  destruct (performed_facts acts _ Hok1) as (I1 & I2 & I3 & I4 & I5 & I6).
  simpl in *. unfold next_entry. rewrite Hpop. simpl.
  split; [done|]. split; [done|]. split; [|split; [|split]].
  - intros y. rewrite Hperm. intros [->|Hy]%elem_of_cons; [by left|right; auto].
  - intros y Hy. destruct (I5 y Hy) as [Hy'|]; [left|by right].
    rewrite Hperm. by right.
  - intros ? [= <-]. done.
  - intros Hdel Hf.
    pose proof (Hf x Hin) as Hx. split; [|lia].
    apply I6; [auto|]. intros y Hy. simpl in *.
    apply key_le_time. apply Hmin. rewrite Hperm. by right.
Qed.

Lemma exec1_facts o s :
  queue_ok s →
  let s' := exec1 o s in
  queue_ok s' ∧ _eid s ≤ _eid s' ∧
  (op_delay_ok o → delays_ok → queue_future s → queue_future s' ∧ (_now s ≤ _now s')%Z).
Proof.
  intros Hok. destruct o as [event priority delay|]; simpl.
  - split; [by apply schedule_queue_ok|]. split; [lia|].
    intros Hd _ Hf. split; [|lia]. apply schedule_queue_future; [apply Hok|done..].
  - destruct (step_facts s Hok) as (H1 & H2 & _ & _ & _ & H6). auto.
Qed.

Lemma exec_facts ops s :
  queue_ok s →
  let s' := exec ops s in
  queue_ok s' ∧ _eid s ≤ _eid s' ∧
  (Forall op_delay_ok ops → delays_ok → queue_future s →
   queue_future s' ∧ (_now s ≤ _now s')%Z).
Proof.
  revert s. induction ops as [|o ops IH]; intros s Hok; simpl.
  { split; [done|]. split; [lia|]. intros _ _ Hf. split; [done|lia]. }
  destruct (exec1_facts o s Hok) as (H1 & H2 & H3).
  destruct (IH _ H1) as (I1 & I2 & I3).
  split; [done|]. split; [lia|]. intros Hall Hd Hf. inversion Hall; subst.
  destruct (H3 ltac:(done) Hd Hf) as [Hf1 Hn1].
  destruct (I3 ltac:(done) Hd Hf1) as [Hf2 Hn2]. split; [done|lia].
Qed.


Lemma fired_app ops1 ops2 s :
  fired (ops1 ++ ops2) s = fired ops1 s ++ fired ops2 (exec ops1 s).
Proof.
  revert s. induction ops1 as [|o ops1 IH]; intros s; [done|].
  simpl. by rewrite IH, (assoc (++)).
Qed.

Lemma fired_eid_lt ops s x :
  queue_ok s → x ∈ fired ops s → entry_eid x < _eid (exec ops s).
Proof.
  revert s. induction ops as [|o ops IH]; intros s Hok; simpl.
  { by intros ?%elem_of_nil. }
  destruct (exec1_facts o s Hok) as (H1 & H2 & _).
  destruct (exec_facts ops _ H1) as (_ & H3 & _).
  intros [Hx|Hx]%elem_of_app; [|by apply IH].
  destruct o as [|]; [by apply elem_of_nil in Hx|].
  destruct (next_entry s) as [y|] eqn:E; [|by apply elem_of_nil in Hx].
  apply list_elem_of_singleton in Hx as ->.
  destruct (step_facts s Hok) as (_ & _ & _ & _ & H5 & _).
  destruct (H5 y E) as (_ & Hin & _). apply Hok in Hin. simpl in *. lia.
Qed.

Lemma stay_or_fired ops s x :
  queue_ok s → x ∈ _queue s → x ∈ fired ops s ∨ x ∈ _queue (exec ops s).
Proof.
  revert s. induction ops as [|o ops IH]; intros s Hok Hx; simpl; [by right|].
  destruct (exec1_facts o s Hok) as (H1 & _).
  destruct o as [event priority delay|].
  - destruct (IH (schedule event priority delay s) H1) as [?|?]; [|by left|by right].
    rewrite schedule_queue by apply Hok. by right.
  - destruct (step_facts s Hok) as (_ & _ & H3 & _).
    destruct (H3 x Hx) as [<-|Hx'].
    + left. simpl. by left.
    + destruct (IH _ H1 Hx') as [?|?]; [left|by right].
      apply elem_of_app. by right.
Qed.

Lemma fifo_general ops s x1 x2 l1 l2 :
  queue_ok s → x1 ∈ _queue s → key_lt x1 x2 →
  fired ops s = l1 ++ x2 :: l2 → x1 ∈ l1.
Proof.
  revert s l1. induction ops as [|o ops IH]; intros s l1 Hok Hx Hlt; simpl.
  { by destruct l1. }
  destruct (exec1_facts o s Hok) as (H1 & _).
  destruct o as [event priority delay|]; simpl.
  - apply IH; [done| |done]. rewrite schedule_queue by apply Hok. by right.
  - destruct (step_facts s Hok) as (_ & _ & H3 & _ & H5 & _).
    destruct (next_entry s) as [m|] eqn:E; simpl.
    + destruct (H5 m eq_refl) as (_ & _ & Hmin).
      destruct l1 as [|y l1]; simpl.
      * intros [= -> _]. exfalso. by apply (key_lt_not_le x1 x2 Hlt), Hmin.
      * intros [= -> Hf]. destruct (H3 x1 Hx) as [[= ->]|Hx']; [by left|].
        right. by apply (IH _ l1 H1 Hx' Hlt).
    + destruct (H3 x1 Hx) as [?|Hx']; [done|]. by apply IH.
Qed.

Lemma eids_distinct s x y :
  queue_ok s → x ∈ _queue s → y ∈ _queue s → entry_eid x = entry_eid y → x = y.
Proof.
  intros (_ & _ & Hnd) Hx Hy Heq.
  apply list_elem_of_lookup in Hx as [i Hi]. apply list_elem_of_lookup in Hy as [j Hj].
  assert (i = j) as ->; [|congruence].
  apply (NoDup_lookup _ i j (entry_eid x) Hnd).
  - by rewrite list_lookup_fmap, Hi.
  - by rewrite list_lookup_fmap, Hj, Heq.
Qed.

(** C1 (amended): after any sequence of [schedule] and [step] calls,
    [step] pops the entry whose key (time, priority, eid) is the least
    of the queue, every other entry having a strictly greater key, and
    sets [now] to the time of that entry; when no delay is negative, in
    the calls of the program and in those of its callbacks, [now] never
    decreases along any further sequence of calls. *)
Theorem step_pops_minimum_and_time_monotone initial_time objs ops :
  let s := exec ops (Environment initial_time objs) in
  (_queue s ≠ [] →
   ∃ x q, heappop entry_lt (_queue s) = Some (x, q) ∧
     x ∈ _queue s ∧
     (∀ y, y ∈ _queue s → key_le x y) ∧
     (∀ y, y ∈ _queue s → y ≠ x → key_lt x y) ∧
     _queue s ≡ₚ x :: q ∧
     step s = process (entry_event x) (set_queue q (set_now (entry_time x) s)) ∧
     _now (step s).2 = entry_time x) ∧
  (delays_ok → Forall op_delay_ok ops →
   ∀ ops', Forall op_delay_ok ops' → (_now s ≤ _now (exec ops' s))%Z).
Proof.
  intros s.
  destruct (exec_facts ops _ (queue_ok_Environment initial_time objs))
    as (Hok & _ & Hfut). fold s in Hok, Hfut.
  split.
  - intros Hne.
    destruct (step_pop s Hok Hne) as (x & q & Hpop & Hin & Hmin & Hperm & Hok1 & Hstep).
    exists x, q. split; [done|]. split; [done|]. split; [done|]. split; [|split; [done|]].
    + intros y Hy Hyx. pose proof (Hmin y Hy) as Hle.
      assert (entry_eid x ≠ entry_eid y).
      { intros Heq. apply Hyx. symmetry. by apply (eids_distinct s). }
      unfold key_le in Hle. unfold key_lt. clear -Hle H. lia.
    + split; [done|].
      destruct (step_facts s Hok) as (_ & _ & _ & _ & H5 & _).
      apply H5. unfold next_entry. by rewrite Hpop.
  - intros Hd Hops ops' Hops'.
    destruct Hfut as [Hf _]; [done|done| |].
    { intros x Hx. by apply elem_of_nil in Hx. }
    by destruct (exec_facts ops' s Hok) as (_ & _ & [_ ?]).
Qed.

(** C2: of two calls of [schedule] with the same priority and the same
    resulting time, the first gets the smaller eid, and whenever the
    entry of the second is popped the entry of the first was popped
    before it. *)
Theorem schedule_fifo initial_time objs ops1 ops2 ops3 e1 e2 p d1 d2 :
  let sA := exec ops1 (Environment initial_time objs) in
  let sB := exec ops2 (schedule e1 p d1 sA) in
  let x1 := ((_now sA + d1)%Z, p, _eid sA, e1) in
  let x2 := ((_now sB + d2)%Z, p, _eid sB, e2) in
  (_now sA + d1 = _now sB + d2)%Z →
  _eid sA < _eid sB ∧
  ∀ l1 l2,
    fired (ops1 ++ op_schedule e1 p d1 :: ops2 ++ op_schedule e2 p d2 :: ops3)
          (Environment initial_time objs) = l1 ++ x2 :: l2 →
    x1 ∈ l1.
Proof.
  intros sA sB x1 x2 Htime.
  destruct (exec_facts ops1 _ (queue_ok_Environment initial_time objs)) as (HokA & _).
  fold sA in HokA.
  pose proof (schedule_queue_ok sA e1 p d1 HokA) as HokA'.
  destruct (exec_facts ops2 _ HokA') as (HokB & HeB & _). fold sB in HokB, HeB.
  simpl in HeB.
  pose proof (schedule_queue_ok sB e2 p d2 HokB) as HokB'.
  assert (key_lt x1 x2) as Hlt.
  { unfold key_lt, x1, x2, entry_time, entry_priority, entry_eid. simpl. lia. }
  split; [lia|]. intros l1 l2.
  rewrite fired_app. fold sA. simpl.
  change (fired (ops2 ++ op_schedule e2 p d2 :: ops3) (schedule e1 p d1 sA))
    with (fired (ops2 ++ [op_schedule e2 p d2] ++ ops3) (schedule e1 p d1 sA)).
  rewrite fired_app. fold sB. simpl.
  set (F1 := fired ops1 (Environment initial_time objs)). set (F2 := fired ops2 (schedule e1 p d1 sA)).
  set (F3 := fired ops3 (schedule e2 p d2 sB)).
  assert (x2 ∉ F1 ++ F2) as Hnot.
  { intros [Hx|Hx]%elem_of_app.
    - apply fired_eid_lt in Hx; [|apply queue_ok_Environment].
      fold sA in Hx. unfold x2, entry_eid in Hx. simpl in Hx. lia.
    - apply fired_eid_lt in Hx; [|done]. fold sB in Hx.
      unfold x2, entry_eid in Hx. simpl in Hx. lia. }
  assert (x1 ∈ _queue (schedule e1 p d1 sA)) as Hin1.
  { rewrite schedule_queue by apply HokA. by left. }
  rewrite (assoc (++)). intros Heq.
  apply app_eq_inv in Heq as [(k & Hk & Hk')|(k & -> & Hk)].
  - destruct k as [|y k]; simpl in Hk'.
    + rewrite app_nil_r in Hk. subst l1.
      destruct (stay_or_fired ops2 _ x1 HokA' Hin1) as [Hf|Hq].
      * apply elem_of_app. by right.
      * exfalso.
        assert (x1 ∈ ([] : list entry)); [|by eapply elem_of_nil].
        apply (fifo_general ops3 (schedule e2 p d2 sB) x1 x2 [] l2); [done| |done|done].
        rewrite schedule_queue by apply HokB. right. exact Hq.
    + injection Hk' as <- _. exfalso. apply Hnot. rewrite Hk.
      apply elem_of_app. right. by left.
  - destruct (stay_or_fired ops2 _ x1 HokA' Hin1) as [Hf|Hq].
    + apply elem_of_app. left. apply elem_of_app. by right.
    + apply elem_of_app. right.
      apply (fifo_general ops3 (schedule e2 p d2 sB) x1 x2 k l2); [done| |done|done].
      rewrite schedule_queue by apply HokB. right. exact Hq.
Qed.

(** C7 (amended): [schedule] accepts every delay, a negative one
    included: the call returns and the entry
    [(now + delay, priority, eid, event)] is in the queue. *)
Theorem schedule_accepts_every_delay initial_time objs ops event priority delay :
  let s := exec ops (Environment initial_time objs) in
  let s' := schedule event priority delay s in
  _queue s' ≡ₚ ((_now s + delay)%Z, priority, _eid s, event) :: _queue s ∧
  _now s' = _now s ∧ _eid s' = S (_eid s) ∧ events s' = events s ∧
  queue_ok s'.
Proof.
  intros s s'.
  destruct (exec_facts ops _ (queue_ok_Environment initial_time objs)) as (Hok & _).
  fold s in Hok. split; [apply schedule_queue, Hok|].
  split; [done|]. split; [done|]. split; [done|]. by apply schedule_queue_ok.
Qed.

End scheduler.

Section running.
Variable pending_value : outcome value.
Variable behaviour : nat → ref → state → list action * option value.

Local Abbreviation invoke := (core.invoke pending_value behaviour).
Local Abbreviation for_callbacks := (core.for_callbacks pending_value behaviour).
Local Abbreviation invocations := (core.invocations pending_value behaviour).
Local Abbreviation process := (core.process pending_value behaviour).
Local Abbreviation step := (core.step pending_value behaviour).
Local Abbreviation steps := (core.steps pending_value behaviour).
Local Abbreviation run_loop := (core.run_loop pending_value behaviour).
Local Abbreviation run_setup := (core.run_setup pending_value).
Local Abbreviation run := (core.run pending_value behaviour).
Local Abbreviation StopSimulation_callback := (core.StopSimulation_callback pending_value).

Lemma bind_eq {A B} (m : M A) (k : A → M B) s :
  (m ≫= k) s = match m s with
               | (Return a, s') => k a s'
               | (Raise exc, s') => (Raise exc, s')
               end.
Proof. done. Qed.

Lemma process_eq event s ev cbs :
  events s !! event = Some ev → callbacks ev = Some cbs →
  process event s =
    (for_callbacks cbs event ≫= λ _, crash_check event) (detached event ev s).
Proof.
  intros Hev Hcbs. unfold core.process. rewrite bind_eq. unfold getobj at 1.
  rewrite Hev. rewrite bind_eq. unfold setobj. by rewrite Hcbs.
Qed.

Lemma process_None event s ev :
  events s !! event = Some ev → callbacks ev = None →
  process event s = (Raise (exc0 TypeError), detached event ev s).
Proof.
  intros Hev Hcbs. unfold core.process. rewrite bind_eq. unfold getobj at 1.
  rewrite Hev. rewrite bind_eq. unfold setobj. by rewrite Hcbs.
Qed.

Lemma step_eq s x q :
  heappop entry_lt (_queue s) = Some (x, q) →
  step s = process (entry_event x) (popped x q s).
Proof. intros Hpop. unfold core.step. rewrite Hpop. by destruct x as [[[t p] i] e]. Qed.

Lemma crash_check_eq event s ev :
  events s !! event = Some ev →
  crash_check event s =
    match _ok ev with
    | None => (Raise (exc0 AttributeError), s)
    | Some ok =>
      if negb ok && negb (_defused ev) then
        match _value ev with
        | Exc cls args cause => (Raise (Exc cls args (Some (_value ev))), s)
        | _ => (Raise (exc0 AttributeError), s)
        end
      else (Return tt, s)
    end.
Proof.
  intros Hev. unfold crash_check. rewrite bind_eq. unfold getobj. rewrite Hev.
  destruct (_ok ev) as [ok|]; [|done].
  destruct (negb ok && negb (_defused ev)); [|done]. by destruct (_value ev).
Qed.

Lemma run_loop_steps n s sn exc s' :
  steps n s = Some sn → step sn = (Raise exc, s') →
  ∀ fuel, n < fuel → run_loop fuel s = Some (exc, s').
Proof.
  revert s. induction n as [|n IH]; intros s Hsteps Hstep fuel Hfuel.
  - injection Hsteps as ->. destruct fuel as [|fuel]; [lia|]. simpl. by rewrite Hstep.
  - destruct fuel as [|fuel]; [lia|]. simpl in *.
    destruct (step s) as [[[]|exc'] s1]; [|done]. apply IH; [done|done|lia].
Qed.

(** C5: when [step] has popped an event and its callbacks have returned,
    an event that failed and is not defused makes [step] raise a copy of
    the failure, which leaves the loop of [run]; an event that succeeded
    or is defused makes [step] return. *)
Theorem step_crashes_on_undefused_failure s x q ev cbs s2 ev2 :
  heappop entry_lt (_queue s) = Some (x, q) →
  events s !! entry_event x = Some ev →
  callbacks ev = Some cbs →
  for_callbacks cbs (entry_event x) (detached (entry_event x) ev (popped x q s))
    = (Return tt, s2) →
  events s2 !! entry_event x = Some ev2 →
  (_ok ev2 = Some false → _defused ev2 = false →
   ∀ cls args cause, _value ev2 = Exc cls args cause →
     step s = (Raise (Exc cls args (Some (Exc cls args cause))), s2) ∧
     ∀ n, run_loop (S n) s = Some (Exc cls args (Some (Exc cls args cause)), s2)) ∧
  (_ok ev2 = Some true → step s = (Return tt, s2)) ∧
  (_ok ev2 = Some false → _defused ev2 = true → step s = (Return tt, s2)).
Proof.
  intros Hpop Hev Hcbs Hfor Hev2.
  assert (step s = crash_check (entry_event x) s2) as Hstep.
  { rewrite (step_eq s x q Hpop).
    rewrite (process_eq _ _ ev cbs) by done. rewrite bind_eq. by rewrite Hfor. }
  rewrite Hstep, (crash_check_eq _ _ ev2 Hev2).
  split; [|split].
  - intros Hok Hdef cls args cause Hval. rewrite Hok, Hdef, Hval. simpl.
    split; [done|]. intros n. simpl.
    rewrite Hstep, (crash_check_eq _ _ ev2 Hev2), Hok, Hdef, Hval. done.
  - intros Hok. by rewrite Hok.
  - intros Hok Hdef. by rewrite Hok, Hdef.
Qed.

Lemma for_callbacks_invocations cbs event s :
  (for_callbacks cbs event s).2 =
    match last (invocations cbs event s) with
    | Some (cb, st) => (invoke cb event st).2
    | None => s
    end ∧
  (invocations cbs event s).*1 `prefix_of` cbs ∧
  ((for_callbacks cbs event s).1 = Return tt → (invocations cbs event s).*1 = cbs).
Proof.
  revert s. induction cbs as [|cb cbs IH]; intros s.
  { split; [done|]. split; done. }
  cbn [core.for_callbacks core.invocations]. rewrite bind_eq.
  destruct (invoke cb event s) as [[[]|exc] s1] eqn:E.
  - destruct (IH s1) as (I1 & I2 & I3).
    rewrite fmap_cons. cbn [fst]. split; [|split].
    + rewrite I1. destruct (invocations cbs event s1) as [|c l] eqn:El.
      * simpl. by rewrite E.
      * rewrite last_cons_cons.
        destruct (last (c :: l)) as [[]|] eqn:El'; [done|by apply last_None in El'].
    + by apply prefix_cons.
    + intros H. f_equal. auto.
  - simpl. rewrite E. split; [done|]. split; [|done].
    apply prefix_cons, prefix_nil.
Qed.

Lemma StopSimulation_callback_state event st :
  (StopSimulation_callback event st).2 = st.
Proof.
  unfold core.StopSimulation_callback.
  unfold mbind, M_bind, bind, getobj, Event_ok, Event_value, value_property, raise_value, ret, raise.
  destruct (events st !! event) as [ev|]; [|done]. simpl.
  destruct (_ok ev) as [[]|]; [| |done]; simpl.
  - by destruct (_value ev), pending_value.
  - destruct (_value ev); try done. by destruct pending_value as [[]|].
Qed.


Lemma for_callbacks_app cbs1 cbs2 event s :
  for_callbacks (cbs1 ++ cbs2) event s =
    match for_callbacks cbs1 event s with
    | (Return _, s') => for_callbacks cbs2 event s'
    | (Raise exc, s') => (Raise exc, s')
    end.
Proof.
  revert s. induction cbs1 as [|cb cbs1 IH]; intros s; [done|].
  cbn [app core.for_callbacks]. rewrite !bind_eq.
  destruct (invoke cb event s) as [[[]|exc] s1]; [apply IH|done].
Qed.


Lemma StopSimulation_callback_failed event s ev cls args cause :
  events s !! event = Some ev → _ok ev = Some false →
  _value ev = Exc cls args cause →
  StopSimulation_callback event s = (Raise (Exc cls args cause), s).
Proof.
  intros Hev Hok Hv. unfold core.StopSimulation_callback.
  rewrite bind_eq. unfold getobj. rewrite Hev. rewrite bind_eq.
  unfold Event_ok. rewrite Hok. cbn [ret]. rewrite bind_eq.
  unfold Event_value, value_property. by rewrite Hv.
Qed.

(** The step that fires an event whose callbacks reach the stop callback:
    the exception of that callback leaves [step]. *)
Lemma step_stops s x q ev cbs cbs' s2 exc :
  heappop entry_lt (_queue s) = Some (x, q) →
  events s !! entry_event x = Some ev →
  callbacks ev = Some (cbs ++ cb_StopSimulation :: cbs') →
  for_callbacks cbs (entry_event x) (detached (entry_event x) ev (popped x q s))
    = (Return tt, s2) →
  StopSimulation_callback (entry_event x) s2 = (Raise exc, s2) →
  step s = (Raise exc, s2).
Proof.
  intros Hpop Hev Hcbs Hfor Hstop.
  rewrite (step_eq s x q Hpop), (process_eq (entry_event x) (popped x q s) ev _ Hev Hcbs).
  rewrite bind_eq, for_callbacks_app, Hfor.
  cbn [core.for_callbacks core.invoke]. rewrite bind_eq. by rewrite Hstop.
Qed.


Lemma run_setup_event s E evE cbs0 :
  events s !! E = Some evE → callbacks evE = Some cbs0 →
  run_setup (until_Event E) s =
    (Return (inr (Some E)),
     set_events (<[E := with_callbacks (Some (cbs0 ++ [cb_StopSimulation])) evE]> (events s)) s).
Proof.
  intros Hev Hcbs. unfold core.run_setup. rewrite bind_eq. unfold getobj at 1.
  rewrite Hev, Hcbs. rewrite bind_eq. unfold callbacks_append.
  rewrite bind_eq. unfold getobj. rewrite Hev, Hcbs. done.
Qed.

Lemma run_eq fuel until s u s0 exc s2 :
  run_setup until s = (Return (inr u), s0) →
  run_loop fuel s0 = Some (exc, s2) →
  run fuel until s = Some (run_except u exc s2).
Proof. intros H1 H2. unfold core.run. by rewrite H1, H2. Qed.



(** The stop callback hands a failure on.  When [E] is popped, the
    callbacks registered before the stop callback return and [E] has
    failed with an exception that is neither a [StopSimulation] nor an
    [EmptySchedule], [run(until=E)] does not return: it raises the stored
    exception itself. *)
Theorem run_until_failed_event s E evE cbs0 :
  events s !! E = Some evE → callbacks evE = Some cbs0 →
  let s0 := set_events
              (<[E := with_callbacks (Some (cbs0 ++ [cb_StopSimulation])) evE]> (events s)) s in
  ∀ n sn x q ev cbs cbs' s2 ev2 cls args cause,
    steps n s0 = Some sn →
    heappop entry_lt (_queue sn) = Some (x, q) → entry_event x = E →
    events sn !! E = Some ev →
    callbacks ev = Some (cbs ++ cb_StopSimulation :: cbs') →
    for_callbacks cbs E (detached E ev (popped x q sn)) = (Return tt, s2) →
    events s2 !! E = Some ev2 → _ok ev2 = Some false →
    _value ev2 = Exc cls args cause →
    cls ≠ StopSimulation → cls ≠ EmptySchedule →
    ∀ fuel, n < fuel →
      run fuel (until_Event E) s = Some (Raise (Exc cls args cause), s2).
Proof.
  intros HevE Hcbs0 s0 n sn x q ev cbs cbs' s2 ev2 cls args cause
    Hsteps Hpop <- Hev Hcbs Hfor Hev2 Hok Hv Hc1 Hc2 fuel Hfuel.
  pose proof (run_setup_event s _ evE cbs0 HevE Hcbs0) as Hsetup. fold s0 in Hsetup.
  assert (step sn = (Raise (Exc cls args cause), s2)) as Hstep.
  { apply (step_stops sn x q ev cbs cbs' s2); try done.
    by apply (StopSimulation_callback_failed _ s2 ev2). }
  rewrite (run_eq fuel _ s _ s0 _ s2 Hsetup
             (run_loop_steps n s0 sn _ s2 Hsteps Hstep fuel Hfuel)).
  by destruct cls.
Qed.

End running.

(** ** The theorems at sample programs *)

Lemma no_callables_delays_ok : behaviour_delays_ok sample.no_callables.
Proof. intros f event s. constructor. Qed.

(** C1 at a program of three [schedule] calls, followed by two steps
    with a [schedule] call between them. *)
Lemma step_pops_minimum_and_time_monotone_witness :
  let s := sample.exec sample.timeline (Environment 0 sample.three) in
  _queue s ≠ [] ∧
  behaviour_delays_ok sample.no_callables ∧
  Forall op_delay_ok sample.timeline ∧
  Forall op_delay_ok [op_step; op_schedule 2 URGENT 0; op_step] ∧
  (∃ x q, heappop entry_lt (_queue s) = Some (x, q) ∧
     x ∈ _queue s ∧
     (∀ y, y ∈ _queue s → key_le x y) ∧
     (∀ y, y ∈ _queue s → y ≠ x → key_lt x y) ∧
     _queue s ≡ₚ x :: q ∧
     sample.step s
       = process sample.value_raises sample.no_callables (entry_event x)
           (set_queue q (set_now (entry_time x) s)) ∧
     _now (sample.step s).2 = entry_time x) ∧
  (_now s ≤ _now (sample.exec [op_step; op_schedule 2 URGENT 0; op_step] s))%Z.
Proof.
  intros s.
  assert (_queue s ≠ []) as Hne by (vm_compute; discriminate).
  assert (Forall op_delay_ok sample.timeline) as Hd1
    by (repeat constructor; simpl; lia).
  assert (Forall op_delay_ok [op_step; op_schedule 2 URGENT 0; op_step]) as Hd2
    by (repeat constructor; simpl; lia).
  destruct (step_pops_minimum_and_time_monotone sample.value_raises
              sample.no_callables 0 sample.three sample.timeline) as [H1 H2].
  split; [exact Hne|]. split; [exact no_callables_delays_ok|].
  split; [exact Hd1|]. split; [exact Hd2|].
  split; [exact (H1 Hne)|].
  exact (H2 no_callables_delays_ok Hd1 _ Hd2).
Defined.

(** C1 as stated fails: after [schedule] with the delay -1 at time 0, a
    step sets [now] to -1. *)
Lemma negative_delay_turns_time_back :
  let s0 := Environment 0 (<[1 := sample.succeeded PyNone]> ∅) in
  (_now (sample.exec [op_schedule 1 NORMAL (-1); op_step] s0) < _now s0)%Z.
Proof. vm_compute. reflexivity. Qed.

(** C2 at two events that reach the time 5 from the times 0 and 2. *)
Lemma schedule_fifo_witness :
  let sA := sample.exec [] (Environment 0 sample.three) in
  let sB := sample.exec [op_schedule 3 NORMAL 2; op_step] (schedule 1 NORMAL 5 sA) in
  let x1 : entry := ((_now sA + 5)%Z, NORMAL, _eid sA, 1) in
  let x2 : entry := ((_now sB + 3)%Z, NORMAL, _eid sB, 2) in
  (_now sA + 5 = _now sB + 3)%Z ∧
  _eid sA < _eid sB ∧
  ∀ l1 l2,
    sample.fired ([] ++ op_schedule 1 NORMAL 5 :: [op_schedule 3 NORMAL 2; op_step]
                     ++ op_schedule 2 NORMAL 3 :: [op_step; op_step])
      (Environment 0 sample.three) = l1 ++ x2 :: l2 →
    x1 ∈ l1.
Proof.
  intros sA sB x1 x2.
  assert (_now sA + 5 = _now sB + 3)%Z as Ht by (vm_compute; reflexivity).
  split; [exact Ht|].
  exact (schedule_fifo sample.value_raises sample.no_callables 0 sample.three
           [] [op_schedule 3 NORMAL 2; op_step] [op_step; op_step] 1 2 NORMAL 5 3 Ht).
Defined.

(** C7 as stated fails: [schedule] with the delay -1 puts the entry for
    time -1 into the queue. *)
Lemma negative_delay_is_scheduled :
  ((-1)%Z, NORMAL, 0, 1) ∈ _queue (schedule 1 NORMAL (-1) (Environment 0 ∅)).
Proof. vm_compute. left. Qed.


(** C5 at one failed event without callbacks. *)
Lemma step_crashes_on_undefused_failure_witness :
  let s := sample.one (sample.failed sample.boom) in
  let x : entry := (0%Z, NORMAL, 0, 1) in
  let s2 := detached 1 (sample.failed sample.boom) (popped x [] s) in
  let ev2 := with_callbacks None (sample.failed sample.boom) in
  heappop entry_lt (_queue s) = Some (x, []) ∧
  events s !! entry_event x = Some (sample.failed sample.boom) ∧
  callbacks (sample.failed sample.boom) = Some [] ∧
  sample.for_callbacks [] (entry_event x) s2 = (Return tt, s2) ∧
  events s2 !! entry_event x = Some ev2 ∧
  _ok ev2 = Some false ∧ _defused ev2 = false ∧
  _value ev2 = Exc (OtherError 1) [PyStr 2] None ∧
  sample.step s
    = (Raise (Exc (OtherError 1) [PyStr 2] (Some sample.boom)), s2) ∧
  ∀ n, sample.run_loop (S n) s
       = Some (Exc (OtherError 1) [PyStr 2] (Some sample.boom), s2).
Proof.
  intros s x s2 ev2.
  assert (heappop entry_lt (_queue s) = Some (x, [])) as H1 by (vm_compute; reflexivity).
  assert (events s !! entry_event x = Some (sample.failed sample.boom)) as H2
    by (vm_compute; reflexivity).
  assert (callbacks (sample.failed sample.boom) = Some []) as H3 by reflexivity.
  assert (sample.for_callbacks [] (entry_event x) s2 = (Return tt, s2)) as H4
    by reflexivity.
  assert (events s2 !! entry_event x = Some ev2) as H5 by (vm_compute; reflexivity).
  split; [exact H1|]. split; [exact H2|]. split; [exact H3|]. split; [exact H4|].
  split; [exact H5|]. split; [reflexivity|]. split; [reflexivity|].
  split; [reflexivity|].
  destruct (step_crashes_on_undefused_failure sample.value_raises
              sample.no_callables s x [] _ [] s2 ev2 H1 H2 H3 H4 H5) as [H _].
  exact (H eq_refl eq_refl (OtherError 1) [PyStr 2] None eq_refl).
Defined.


(** [run(until=E)] at an event that has failed with an exception of the
    program. *)
Lemma run_until_failed_event_witness :
  let evE := sample.failed sample.boom in
  let s := sample.one evE in
  let ev := with_callbacks (Some ([] ++ [cb_StopSimulation])) evE in
  let s0 := set_events (<[1 := ev]> (events s)) s in
  let x : entry := (0%Z, NORMAL, 0, 1) in
  let s2 := detached 1 ev (popped x [] s0) in
  let ev2 := with_callbacks None ev in
  events s !! 1 = Some evE ∧ callbacks evE = Some [] ∧
  sample.steps 0 s0 = Some s0 ∧
  heappop entry_lt (_queue s0) = Some (x, []) ∧ entry_event x = 1 ∧
  events s0 !! 1 = Some ev ∧
  callbacks ev = Some ([] ++ cb_StopSimulation :: []) ∧
  sample.for_callbacks [] 1 s2 = (Return tt, s2) ∧
  events s2 !! 1 = Some ev2 ∧ _ok ev2 = Some false ∧
  _value ev2 = Exc (OtherError 1) [PyStr 2] None ∧
  OtherError 1 ≠ StopSimulation ∧ OtherError 1 ≠ EmptySchedule ∧
  sample.run 1 (until_Event 1) s = Some (Raise sample.boom, s2).
Proof.
  intros evE s ev s0 x s2 ev2.
  assert (events s !! 1 = Some evE) as H1 by (vm_compute; reflexivity).
  assert (callbacks evE = Some []) as H2 by reflexivity.
  assert (heappop entry_lt (_queue s0) = Some (x, [])) as H3 by (vm_compute; reflexivity).
  assert (events s0 !! 1 = Some ev) as H4 by (vm_compute; reflexivity).
  assert (events s2 !! 1 = Some ev2) as H5 by (vm_compute; reflexivity).
  assert (OtherError 1 ≠ StopSimulation) as H6 by discriminate.
  assert (OtherError 1 ≠ EmptySchedule) as H7 by discriminate.
  split; [exact H1|]. split; [exact H2|]. split; [reflexivity|]. split; [exact H3|].
  split; [reflexivity|]. split; [exact H4|]. split; [reflexivity|].
  split; [reflexivity|]. split; [exact H5|]. split; [reflexivity|].
  split; [reflexivity|]. split; [exact H6|]. split; [exact H7|].
  exact (run_until_failed_event sample.value_raises sample.no_callables
           s 1 evE [] H1 H2 0 s0 x [] ev [] [] s2 ev2 (OtherError 1) [PyStr 2] None
           eq_refl H3 eq_refl H4 eq_refl eq_refl H5 eq_refl eq_refl H6 H7 1 ltac:(lia)).
Defined.

(** C10: the code at the failing inputs.  Event 1 has failed and is the
    next entry of the queue.  When its failure is a [StopSimulation]
    instance, the [except] clause of [run] takes the exception that the
    stop callback raises for the stop signal, and [run(until=E)] returns
    its argument 42, which is not the value of [E]; when it is an
    [EmptySchedule] instance, [run] takes it for the empty queue and its
    own assertion fails.  A failure of another class leaves [run] as it
    is. *)
Theorem run_takes_failure_for_stop_signal :
  let s exc := sample.one (sample.failed exc) in
  let stop := Exc StopSimulation [PyInt 42] None in
  (_ok <$> events (s stop) !! 1 = Some (Some false) ∧
   entry_event <$> next_entry (s stop) = Some 1 ∧
   ∃ s', sample.run 1 (until_Event 1) (s stop) = Some (Return (PyInt 42), s') ∧
         _value <$> events s' !! 1 = Some stop) ∧
  (_ok <$> events (s (exc0 EmptySchedule)) !! 1 = Some (Some false) ∧
   entry_event <$> next_entry (s (exc0 EmptySchedule)) = Some 1 ∧
   ∃ s', sample.run 1 (until_Event 1) (s (exc0 EmptySchedule))
           = Some (Raise (exc0 AssertionError), s')) ∧
  (∃ s', sample.run 1 (until_Event 1) (s sample.boom) = Some (Raise sample.boom, s')).
Proof.
  intros s stop. split; [|split].
  - split; [by vm_compute|]. split; [by vm_compute|].
    eexists. split; vm_compute; reflexivity.
  - split; [by vm_compute|]. split; [by vm_compute|].
    eexists. vm_compute. reflexivity.
  - eexists. vm_compute. reflexivity.
Qed.

End core_facts.

(** ** [simpy.resources.base]: the queues *)
Module resources_facts.
Import core resources.

Lemma list_remove_head x l : list_remove x (x :: l) = Some l.
Proof. simpl. by rewrite decide_True. Qed.

Lemma list_remove_elem x l :
  x ∈ l →
  ∃ l1 l2, l = l1 ++ (x :: l2) ∧ (x ∉ l1) ∧ list_remove x l = Some (l1 ++ l2).
Proof.
  induction l as [|y l IH]; [by intros ?%elem_of_nil|].
  intros Hin. simpl. destruct (decide (x = y)) as [->|Hne].
  - exists [], l. split; [done|]. split; [apply not_elem_of_nil|done].
  - apply elem_of_cons in Hin as [?|Hin]; [done|].
    destruct (IH Hin) as (l1 & l2 & -> & Hnot & ->).
    exists (y :: l1), l2. split; [done|]. split; [|done].
    apply not_elem_of_cons. done.
Qed.

Lemma list_remove_Some x l l' : list_remove x l = Some l' → l ≡ₚ x :: l'.
Proof.
  revert l'. induction l as [|y l IH]; intros l'; simpl; [done|].
  destruct (decide (x = y)) as [->|Hne]; [by intros [= ->]|].
  destruct (list_remove x l) as [l0|]; [|done]. simpl. intros [= <-].
  rewrite (IH l0 eq_refl). apply Permutation_swap.
Qed.

Lemma list_remove_None x l : x ∉ l → list_remove x l = None.
Proof.
  induction l as [|y l IH]; [done|]. intros [Hne Hnot]%not_elem_of_cons.
  simpl. rewrite decide_False by done. by rewrite IH.
Qed.

Section protocol.
Context {Σ Args : Type}.
Variable pending_value : outcome value.
Variable PutEvent_args GetEvent_args : Args → ref → Σ → Σ.
Variable _do_put _do_get : ref → world Σ → world Σ.

Local Abbreviation put := (resources.put PutEvent_args _do_put _do_get).
Local Abbreviation get := (resources.get GetEvent_args _do_put _do_get).
Local Abbreviation Get_cancel := (resources.Get_cancel (Σ:=Σ) pending_value).
Local Abbreviation exec :=
  (resources.exec pending_value PutEvent_args GetEvent_args _do_put _do_get).
Local Abbreviation exec1 :=
  (resources.exec1 pending_value PutEvent_args GetEvent_args _do_put _do_get).

Lemma offered_snoc (hook : ref → world Σ → world Σ) l r w :
  offered hook (l ++ [r]) w = hook r (offered hook l w).
Proof. unfold offered. by rewrite foldl_app. Qed.

Lemma trigger_queued_spec n hook queue (w : world Σ) :
  length queue ≤ n →
  ∃ k,
    trigger_queued n hook queue w
      = (Return tt, drop k queue, offered hook (take (S k) queue) w) ∧
    (∀ i r, i < k → queue !! i = Some r →
       is_pending (offered hook (take (S i) queue) w) r = false) ∧
    (∀ r, queue !! k = Some r →
       is_pending (offered hook (take (S k) queue) w) r = true).
Proof.
  revert queue w. induction n as [|n IH]; intros queue w Hlen.
  { destruct queue; [|simpl in Hlen; lia]. exists 0. split; [done|]. split; [lia|done]. }
  destruct queue as [|event queue].
  { exists 0. split; [done|]. split; [lia|done]. }
  cbn [trigger_queued]. destruct (is_pending (hook event w) event) eqn:Hp.
  - exists 0. split; [done|]. split; [lia|]. intros r [= <-]. done.
  - rewrite list_remove_head.
    destruct (IH queue (hook event w)) as (k & -> & Hres & Hhead).
    { simpl in Hlen. lia. }
    exists (S k). split; [done|]. split.
    + intros [|i] r Hi; simpl.
      * by intros [= <-].
      * intros Hr. apply (Hres i r); [lia|done].
    + intros r Hr. by apply Hhead.
Qed.

Lemma put_pending args res (w : world Σ) :
  let rw := new_request PutEvent_args args w in
  let w2 := _do_put rw.1 rw.2 in
  is_pending w2 rw.1 = true →
  put args res w = (Return rw.1, set_put_queue (put_queue res ++ [rw.1]) res, w2).
Proof.
  intros rw w2 Hp. unfold resources.put. fold rw.
  destruct rw as [r w1] eqn:E. simpl in *. fold w2. by rewrite Hp.
Qed.

Lemma put_triggered args res (w : world Σ) :
  let rw := new_request PutEvent_args args w in
  let w2 := _do_put rw.1 rw.2 in
  is_pending w2 rw.1 = false →
  ∃ k,
    put args res w
      = (Return rw.1, set_get_queue (drop k (get_queue res)) res,
         offered _do_get (take (S k) (get_queue res)) w2) ∧
    (∀ i r, i < k → get_queue res !! i = Some r →
       is_pending (offered _do_get (take (S i) (get_queue res)) w2) r = false) ∧
    (∀ r, get_queue res !! k = Some r →
       is_pending (offered _do_get (take (S k) (get_queue res)) w2) r = true).
Proof.
  intros rw w2 Hp. unfold resources.put. fold rw.
  destruct rw as [r w1] eqn:E. simpl in *. fold w2. rewrite Hp. simpl.
  destruct (trigger_queued_spec (length (get_queue res)) _do_get (get_queue res) w2)
    as (k & -> & H1 & H2); [done|].
  by exists k.
Qed.

Lemma get_pending args res (w : world Σ) :
  let rw := new_request GetEvent_args args w in
  let w2 := _do_get rw.1 rw.2 in
  is_pending w2 rw.1 = true →
  get args res w = (Return rw.1, set_get_queue (get_queue res ++ [rw.1]) res, w2).
Proof.
  intros rw w2 Hp. unfold resources.get. fold rw.
  destruct rw as [r w1] eqn:E. simpl in *. fold w2. by rewrite Hp.
Qed.

Lemma get_triggered args res (w : world Σ) :
  let rw := new_request GetEvent_args args w in
  let w2 := _do_get rw.1 rw.2 in
  is_pending w2 rw.1 = false →
  ∃ k,
    get args res w
      = (Return rw.1, set_put_queue (drop k (put_queue res)) res,
         offered _do_put (take (S k) (put_queue res)) w2) ∧
    (∀ i r, i < k → put_queue res !! i = Some r →
       is_pending (offered _do_put (take (S i) (put_queue res)) w2) r = false) ∧
    (∀ r, put_queue res !! k = Some r →
       is_pending (offered _do_put (take (S k) (put_queue res)) w2) r = true).
Proof.
  intros rw w2 Hp. unfold resources.get. fold rw.
  destruct rw as [r w1] eqn:E. simpl in *. fold w2. rewrite Hp. simpl.
  destruct (trigger_queued_spec (length (put_queue res)) _do_put (put_queue res) w2)
    as (k & -> & H1 & H2); [done|].
  by exists k.
Qed.

(** C3: a [put] whose request [_do_put] has triggered offers the queued
    get requests to [_do_get] from the head on: the first [k] are
    triggered and removed, the next one, if there is one, stays pending
    and stays at the head, and no request behind it is offered or
    removed; [get] does the same with the put queue.  On the resource of
    capacity 1, three [get] calls and then one [put] leave the second
    and third get request queued, in that order and pending, the first
    one triggered. *)
Theorem put_get_cascade :
  (∀ args res w,
     let rw := new_request PutEvent_args args w in
     let w2 := _do_put rw.1 rw.2 in
     is_pending w2 rw.1 = false →
     ∃ k,
       put args res w
         = (Return rw.1, set_get_queue (drop k (get_queue res)) res,
            offered _do_get (take (S k) (get_queue res)) w2) ∧
       (∀ i r, i < k → get_queue res !! i = Some r →
          is_pending (offered _do_get (take (S i) (get_queue res)) w2) r = false) ∧
       (∀ r, get_queue res !! k = Some r →
          is_pending (offered _do_get (take (S k) (get_queue res)) w2) r = true)) ∧
  (∀ args res w,
     let rw := new_request GetEvent_args args w in
     let w2 := _do_get rw.1 rw.2 in
     is_pending w2 rw.1 = false →
     ∃ k,
       get args res w
         = (Return rw.1, set_put_queue (drop k (put_queue res)) res,
            offered _do_put (take (S k) (put_queue res)) w2) ∧
       (∀ i r, i < k → put_queue res !! i = Some r →
          is_pending (offered _do_put (take (S i) (put_queue res)) w2) r = false) ∧
       (∀ r, put_queue res !! k = Some r →
          is_pending (offered _do_put (take (S k) (put_queue res)) w2) r = true)) ∧
  (∃ g1 g2 g3 p res1 w1 res2 w2 res3 w3 res4 w4,
     capacity1.get capacity1.init.1 capacity1.init.2 = (Return g1, res1, w1) ∧
     capacity1.get res1 w1 = (Return g2, res2, w2) ∧
     capacity1.get res2 w2 = (Return g3, res3, w3) ∧
     get_queue res3 = [g1; g2; g3] ∧
     capacity1.put res3 w3 = (Return p, res4, w4) ∧
     get_queue res4 = [g2; g3] ∧ put_queue res4 = [] ∧
     is_pending w4 g1 = false ∧ is_pending w4 g2 = true ∧
     is_pending w4 g3 = true ∧ is_pending w4 p = false).
Proof.
  split; [exact put_triggered|]. split; [exact get_triggered|].
  by eexists _, _, _, _, _, _, _, _, _, _, _, _; repeat split; vm_compute.
Qed.

End protocol.

Section invariant.
Context {Σ Args : Type}.
Variable pending_value : outcome value.
Variable PutEvent_args GetEvent_args : Args → ref → Σ → Σ.
Variable _do_put _do_get : ref → world Σ → world Σ.
Hypothesis put_local : hook_local _do_put.
Hypothesis get_local : hook_local _do_get.

Local Abbreviation put := (resources.put PutEvent_args _do_put _do_get).
Local Abbreviation get := (resources.get GetEvent_args _do_put _do_get).
Local Abbreviation Get_cancel := (resources.Get_cancel (Σ:=Σ) pending_value).
Local Abbreviation exec :=
  (resources.exec pending_value PutEvent_args GetEvent_args _do_put _do_get).

Lemma is_pending_dom (w : world Σ) r :
  is_pending w r = true → r ∈ dom (requests w).
Proof.
  unfold is_pending. destruct (requests w !! r) eqn:E; [|done].
  intros _. apply elem_of_dom. eauto.
Qed.

Lemma new_request_facts (store_args : Args → ref → Σ → Σ) args (w : world Σ) :
  let rw := new_request store_args args w in
  (rw.1 ∉ dom (requests w)) ∧ is_pending rw.2 rw.1 = true ∧
  ∀ r, is_pending w r = true → is_pending rw.2 r = true ∧ r ≠ rw.1.
Proof.
  simpl. set (r0 := fresh (dom (requests w))).
  assert (r0 ∉ dom (requests w)) as Hfresh by apply is_fresh.
  split; [done|]. split.
  - unfold is_pending. simpl. by rewrite lookup_insert_eq.
  - intros r Hr.
    assert (r ≠ r0) as Hne by (intros ->; by apply Hfresh, is_pending_dom).
    split; [|done]. unfold is_pending in *. simpl. by rewrite lookup_insert_ne.
Qed.

Lemma offered_pending hook l (w : world Σ) r :
  hook_local hook → r ∉ l → is_pending w r = true →
  is_pending (offered hook l w) r = true.
Proof.
  intros Hloc. revert w. induction l as [|x l IH]; intros w Hnot Hp; [done|].
  apply not_elem_of_cons in Hnot as [Hne Hnot].
  simpl. apply IH; [done|]. by apply Hloc.
Qed.

Lemma cascade_queues_ok hook q1 q2 k (w : world Σ) :
  hook_local hook →
  (∀ r, r ∈ q1 ++ q2 → is_pending w r = true) →
  NoDup (q1 ++ q2) →
  (∀ r, q2 !! k = Some r →
        is_pending (offered hook (take (S k) q2) w) r = true) →
  (∀ r, r ∈ q1 ++ drop k q2 → is_pending (offered hook (take (S k) q2) w) r = true) ∧
  NoDup (q1 ++ drop k q2).
Proof.
  intros Hloc Hpend Hnd Hhead.
  apply NoDup_app in Hnd as (Hnd1 & Hdis & Hnd2).
  rewrite <-(take_drop k q2) in Hnd2.
  apply NoDup_app in Hnd2 as (Hnd3 & Hdis2 & Hnd4).
  split.
  - intros r [Hr|Hr]%elem_of_app.
    + apply offered_pending; [done| |apply Hpend, elem_of_app; by left].
      intros Hin. apply (Hdis r Hr). by apply (subseteq_take (S k) q2).
    + destruct (drop k q2) as [|h t] eqn:Hd; [by apply elem_of_nil in Hr|].
      assert (q2 !! k = Some h) as Hk.
      { rewrite <-(Nat.add_0_r k), <-lookup_drop, Hd. done. }
      apply elem_of_cons in Hr as [->|Hr]; [by apply Hhead|].
      assert (take (S k) q2 = take k q2 ++ [h]) as Ht by by apply take_S_r.
      apply offered_pending; [done| |].
      * rewrite Ht. intros [Hin|Hin]%elem_of_app.
        -- apply (Hdis2 r Hin). by right.
        -- apply list_elem_of_singleton in Hin as ->.
           apply NoDup_cons in Hnd4 as [? _]. done.
      * apply Hpend, elem_of_app. right. rewrite <-(take_drop k q2), Hd.
        apply elem_of_app. right. by right.
  - apply NoDup_app. split; [done|]. split; [|done].
    intros r Hr Hin. apply (Hdis r Hr). by apply (subseteq_drop k q2).
Qed.

Lemma queues_ok_perm res res' (w : world Σ) x :
  queues_ok (res, w) →
  put_queue res ++ get_queue res ≡ₚ x :: (put_queue res' ++ get_queue res') →
  queues_ok (res', w).
Proof.
  intros [Hp Hnd] Hperm. simpl in *. split; simpl.
  - intros r Hr. apply Hp. rewrite Hperm. by right.
  - rewrite Hperm in Hnd. by apply NoDup_cons in Hnd as [_ ?].
Qed.

Lemma put_queues_ok args res (w : world Σ) :
  queues_ok (res, w) →
  let '(_, res', w') := put args res w in queues_ok (res', w').
Proof.
  intros [Hp Hnd]. simpl in *.
  pose proof (new_request_facts PutEvent_args args w) as (Hfresh & Hnew & Hold).
  set (rw := new_request PutEvent_args args w) in *.
  set (w2 := _do_put rw.1 rw.2).
  assert (∀ r, r ∈ put_queue res ++ get_queue res →
               is_pending w2 r = true ∧ r ≠ rw.1) as Hq.
  { intros r Hr. destruct (Hold r (Hp r Hr)) as [H1 H2]. split; [|done].
    by apply put_local. }
  destruct (is_pending w2 rw.1) eqn:E.
  - rewrite (put_pending PutEvent_args _do_put _do_get args res w E). fold rw w2. split; simpl.
    + intros r. rewrite <-(assoc (++)). cbn [app]. rewrite elem_of_app, elem_of_cons.
      intros [Hr|[->|Hr]]; [|done|].
      * apply Hq, elem_of_app. by left.
      * apply Hq, elem_of_app. by right.
    + rewrite <-(assoc (++)). cbn [app]. rewrite <-Permutation_middle.
      apply NoDup_cons. split; [|done]. intros Hin. by destruct (Hq _ Hin).
  - destruct (put_triggered PutEvent_args _do_put _do_get args res w E) as (k & -> & _ & Hhead). fold rw w2.
    unfold queues_ok. simpl.
    apply (cascade_queues_ok _do_get (put_queue res) (get_queue res) k w2);
      [done| |done|done].
    intros r Hr. by apply Hq.
Qed.

Lemma get_queues_ok args res (w : world Σ) :
  queues_ok (res, w) →
  let '(_, res', w') := get args res w in queues_ok (res', w').
Proof.
  intros [Hp Hnd]. simpl in *.
  pose proof (new_request_facts GetEvent_args args w) as (Hfresh & Hnew & Hold).
  set (rw := new_request GetEvent_args args w) in *.
  set (w2 := _do_get rw.1 rw.2).
  assert (∀ r, r ∈ put_queue res ++ get_queue res →
               is_pending w2 r = true ∧ r ≠ rw.1) as Hq.
  { intros r Hr. destruct (Hold r (Hp r Hr)) as [H1 H2]. split; [|done].
    by apply get_local. }
  destruct (is_pending w2 rw.1) eqn:E.
  - rewrite (get_pending GetEvent_args _do_put _do_get args res w E). fold rw w2. split; simpl.
    + intros r. rewrite (assoc (++)). rewrite elem_of_app, list_elem_of_singleton.
      intros [Hr| ->]; [by apply Hq|done].
    + rewrite (assoc (++)). rewrite Permutation_app_comm. simpl.
      apply NoDup_cons. split; [|done]. intros Hin. by destruct (Hq _ Hin).
  - destruct (get_triggered GetEvent_args _do_put _do_get args res w E) as (k & -> & _ & Hhead). fold rw w2.
    unfold queues_ok. simpl.
    destruct (cascade_queues_ok _do_put (get_queue res) (put_queue res) k w2)
      as [H1 H2]; [done| | |done|].
    + intros r Hr. apply Hq. rewrite elem_of_app in *. tauto.
    + by rewrite Permutation_app_comm.
    + split.
      * intros r Hr. apply H1. rewrite elem_of_app in *. tauto.
      * by rewrite Permutation_app_comm.
Qed.

Lemma Put_cancel_queues_ok r res (w : world Σ) :
  queues_ok (res, w) → queues_ok ((Put_cancel r res w).2, w).
Proof.
  intros Hok. unfold Put_cancel.
  destruct (requests w !! r) as [ev|]; [|done].
  destruct (_value ev); try done.
  destruct (list_remove r (put_queue res)) as [q|] eqn:E; [|done].
  apply list_remove_Some in E. simpl.
  apply (queues_ok_perm res _ w r Hok). simpl. by rewrite E.
Qed.

Lemma Get_cancel_queues_ok r res (w : world Σ) :
  queues_ok (res, w) → queues_ok ((Get_cancel r res w).2, w).
Proof.
  intros Hok. unfold resources.Get_cancel.
  destruct (requests w !! r) as [ev|]; [|done].
  destruct (value_property pending_value ev) as [[]|]; try done.
  destruct (list_remove r (get_queue res)) as [q|] eqn:E; [|done].
  apply list_remove_Some in E. simpl.
  apply (queues_ok_perm res _ w r Hok). simpl.
  by rewrite E, Permutation_middle.
Qed.

Lemma exec_queues_ok ops (st : BaseResource * world Σ) : queues_ok st → queues_ok (exec ops st).
Proof.
  revert st. induction ops as [|o ops IH]; intros st Hok; [done|].
  simpl. apply IH. destruct st as [res w]. destruct o as [args|args|r|r]; simpl.
  - pose proof (put_queues_ok args res w Hok) as H.
    by destruct (put args res w) as [[? ?] ?].
  - pose proof (get_queues_ok args res w Hok) as H.
    by destruct (get args res w) as [[? ?] ?].
  - by apply Put_cancel_queues_ok.
  - by apply Get_cancel_queues_ok.
Qed.

Lemma queues_ok_init (w0 : world Σ) : queues_ok (BaseResource_init, w0).
Proof. split; simpl; [by intros r ?%elem_of_nil|constructor]. Qed.

(** The queue discipline of [cancel]: in every state that [put], [get]
    and [cancel] calls lead to,
    [cancel] on a queued request removes that request, which is queued
    once, and keeps the others of its queue in their order and the other
    queue as it is ([Get.cancel] when the property [value] hands back the
    slot of a pending event); [cancel] on a triggered request changes
    neither queue, and no queue holds a triggered request. *)
Theorem cancel_removes_only_the_request ops (w0 : world Σ) :
  let st := exec ops (BaseResource_init, w0) in
  (∀ r, r ∈ put_queue st.1 →
     ∃ l1 l2, put_queue st.1 = l1 ++ r :: l2 ∧ (r ∉ l1 ++ l2) ∧
       Put_cancel r st.1 st.2 = (Return tt, set_put_queue (l1 ++ l2) st.1)) ∧
  (pending_value = Return PENDING →
   ∀ r, r ∈ get_queue st.1 →
     ∃ l1 l2, get_queue st.1 = l1 ++ r :: l2 ∧ (r ∉ l1 ++ l2) ∧
       Get_cancel r st.1 st.2 = (Return tt, set_get_queue (l1 ++ l2) st.1)) ∧
  (∀ r ev, requests st.2 !! r = Some ev → _value ev ≠ PENDING →
     Put_cancel r st.1 st.2 = (Return tt, st.1) ∧
     Get_cancel r st.1 st.2 = (Return tt, st.1) ∧
     (r ∉ put_queue st.1) ∧ (r ∉ get_queue st.1)) ∧
  (∀ r, r ∈ put_queue st.1 ++ get_queue st.1 → is_pending st.2 r = true).
Proof.
  intros st.
  pose proof (exec_queues_ok ops _ (queues_ok_init w0)) as [Hp Hnd]. fold st in Hp, Hnd.
  apply NoDup_app in Hnd as (Hnd1 & _ & Hnd2).
  assert (∀ r (q : list ref), NoDup q → r ∈ q →
            ∃ l1 l2, q = l1 ++ r :: l2 ∧ (r ∉ l1 ++ l2) ∧
                     list_remove r q = Some (l1 ++ l2)) as Hrem.
  { intros r q Hq Hr. destruct (list_remove_elem r q Hr) as (l1 & l2 & -> & Hn1 & Hr').
    exists l1, l2. split; [done|]. split; [|done].
    rewrite <-Permutation_middle in Hq. by apply NoDup_cons in Hq as [? _]. }
  split; [|split; [|split]].
  - intros r Hr. destruct (Hrem r _ Hnd1 Hr) as (l1 & l2 & Hq & Hnot & Hlr).
    exists l1, l2. split; [done|]. split; [done|].
    pose proof (Hp r ltac:(apply elem_of_app; by left)) as Hpend.
    unfold Put_cancel. unfold is_pending in Hpend.
    destruct (requests st.2 !! r) as [ev|]; [|done].
    destruct (_value ev); try done. by rewrite Hlr.
  - intros Hpv r Hr. destruct (Hrem r _ Hnd2 Hr) as (l1 & l2 & Hq & Hnot & Hlr).
    exists l1, l2. split; [done|]. split; [done|].
    pose proof (Hp r ltac:(apply elem_of_app; by right)) as Hpend.
    unfold resources.Get_cancel, value_property. unfold is_pending in Hpend.
    destruct (requests st.2 !! r) as [ev|]; [|done].
    destruct (_value ev); try done. by rewrite Hpv, Hlr.
  - intros r ev Hev Hv.
    assert (is_pending st.2 r = false) as Hnp.
    { unfold is_pending. rewrite Hev. by destruct (_value ev). }
    split; [|split; [|split]].
    + unfold Put_cancel. rewrite Hev. by destruct (_value ev).
    + unfold resources.Get_cancel, value_property. rewrite Hev. by destruct (_value ev).
    + intros Hin. specialize (Hp r ltac:(apply elem_of_app; by left)). congruence.
    + intros Hin. specialize (Hp r ltac:(apply elem_of_app; by right)). congruence.
  - done.
Qed.

(** With a property [value] that raises on a pending event,
    [Get.cancel] on a queued request raises and the request stays
    queued. *)
Lemma Get_cancel_raising exc r res (w : world Σ) :
  pending_value = Raise exc → is_pending w r = true →
  Get_cancel r res w = (Raise exc, res).
Proof.
  intros Hpv Hp. unfold resources.Get_cancel, value_property.
  unfold is_pending in Hp. destruct (requests w !! r) as [ev|]; [|done].
  destruct (_value ev); try done. by rewrite Hpv.
Qed.

End invariant.

(** ** The theorems at the resource of capacity 1 *)

Lemma succeed_local r r' (w : world bool) b :
  r' ≠ r → is_pending w r' = true → is_pending (capacity1.succeed r w b) r' = true.
Proof.
  intros Hne Hp. unfold is_pending, capacity1.succeed in *. simpl.
  by rewrite lookup_alter_ne.
Qed.

Lemma capacity1_put_local : hook_local capacity1._do_put.
Proof.
  intros r r' w Hne Hp. unfold capacity1._do_put.
  destruct (custom w); [done|]. by apply succeed_local.
Qed.

Lemma capacity1_get_local : hook_local capacity1._do_get.
Proof.
  intros r r' w Hne Hp. unfold capacity1._do_get.
  destruct (custom w); [|done]. by apply succeed_local.
Qed.

(** C3 at a [put] on the resource of capacity 1 with three queued get
    requests. *)
Lemma put_get_cascade_witness :
  let st := exec (Return PENDING) capacity1.no_args capacity1.no_args
              capacity1._do_put capacity1._do_get
              [op_get tt; op_get tt; op_get tt] capacity1.init in
  let rw := new_request capacity1.no_args tt st.2 in
  let w2 := capacity1._do_put rw.1 rw.2 in
  is_pending w2 rw.1 = false ∧
  ∃ k,
    capacity1.put st.1 st.2
      = (Return rw.1, set_get_queue (drop k (get_queue st.1)) st.1,
         offered capacity1._do_get (take (S k) (get_queue st.1)) w2) ∧
    (∀ i r, i < k → get_queue st.1 !! i = Some r →
       is_pending (offered capacity1._do_get (take (S i) (get_queue st.1)) w2) r = false) ∧
    (∀ r, get_queue st.1 !! k = Some r →
       is_pending (offered capacity1._do_get (take (S k) (get_queue st.1)) w2) r = true).
Proof.
  intros st rw w2.
  assert (is_pending w2 rw.1 = false) as Hp by (vm_compute; reflexivity).
  split; [exact Hp|].
  destruct (put_get_cascade (Args := unit) capacity1.no_args capacity1.no_args
              capacity1._do_put capacity1._do_get) as [H _].
  exact (H tt st.1 st.2 Hp).
Defined.

(** [cancel] at the second of three queued get requests, for a property
    [value] that hands back the slot. *)
Lemma cancel_removes_only_the_request_witness :
  let st := exec (Return PENDING) capacity1.no_args capacity1.no_args
              capacity1._do_put capacity1._do_get
              [op_get tt; op_get tt; op_get tt] capacity1.init in
  hook_local capacity1._do_put ∧ hook_local capacity1._do_get ∧
  1 ∈ get_queue st.1 ∧
  ∃ l1 l2, get_queue st.1 = l1 ++ 1 :: l2 ∧ (1 ∉ l1 ++ l2) ∧
    Get_cancel (Return PENDING) 1 st.1 st.2 = (Return tt, set_get_queue (l1 ++ l2) st.1).
Proof.
  intros st.
  assert (1 ∈ get_queue st.1) as Hin by (vm_compute; right; left).
  split; [exact capacity1_put_local|]. split; [exact capacity1_get_local|].
  split; [exact Hin|].
  destruct (cancel_removes_only_the_request (Args := unit) (Return PENDING)
              capacity1.no_args capacity1.no_args
              capacity1._do_put capacity1._do_get
              capacity1_put_local capacity1_get_local
              [op_get tt; op_get tt; op_get tt] capacity1.init.2) as (_ & H & _).
  exact (H eq_refl 1 Hin).
Defined.

(** C8: the code at the failing input.  With the property [value] as
    [simpy.events] has it (it raises [AttributeError] while the event is
    pending), [Get.cancel] on the second of three queued get requests
    raises and removes nothing; [Put.cancel], which reads the attribute
    [_value], removes the second of two queued put requests. *)
Theorem get_cancel_raises_on_queued_request :
  let run := exec sample.value_raises capacity1.no_args capacity1.no_args
               capacity1._do_put capacity1._do_get in
  let g := run [op_get tt; op_get tt; op_get tt] capacity1.init in
  let p := run [op_put tt; op_put tt; op_put tt] capacity1.init in
  get_queue g.1 = [0; 1; 2] ∧ is_pending g.2 1 = true ∧
  Get_cancel sample.value_raises 1 g.1 g.2 = (Raise (exc0 AttributeError), g.1) ∧
  put_queue p.1 = [1; 2] ∧ is_pending p.2 2 = true ∧
  Put_cancel 2 p.1 p.2 = (Return tt, set_put_queue [1] p.1).
Proof.
  intros run g p. repeat split; vm_compute; reflexivity.
Qed.

End resources_facts.

(** ** [simpy.core]: further properties of [peek], [schedule], [step] and
    [run] *)
Module core_more.
Import heapq core core_facts.

Section more.
Variable pending_value : outcome value.
Variable behaviour : nat → ref → state → list action * option value.

Local Abbreviation step := (core.step pending_value behaviour).
Local Abbreviation exec := (core.exec pending_value behaviour).
Local Abbreviation exec1 := (core.exec1 pending_value behaviour).
Local Abbreviation fired := (core.fired pending_value behaviour).
Local Abbreviation steps := (core.steps pending_value behaviour).
Local Abbreviation run := (core.run pending_value behaviour).
Local Abbreviation run_loop := (core.run_loop pending_value behaviour).
Local Abbreviation run_setup := (core.run_setup pending_value).
Local Abbreviation for_callbacks := (core.for_callbacks pending_value behaviour).
Local Abbreviation invocations := (core.invocations pending_value behaviour).
Local Abbreviation delays_ok := (core.behaviour_delays_ok behaviour).
Local Abbreviation StopSimulation_callback := (core.StopSimulation_callback pending_value).

Lemma next_entry_head s :
  queue_ok s → next_entry s = head (_queue s).
Proof.
  intros Hok. unfold next_entry.
  destruct (decide (_queue s = [])) as [E|Hne]; [by rewrite E|].
  destruct (heapq_facts.heappop_spec entry_lt entry_lt_le entry_le_trans
              (_queue s) (proj1 Hok) Hne) as (x & q & -> & H0 & _).
  simpl. by rewrite head_lookup.
Qed.

(** X1: [peek] announces the next step.  When it answers [Infinity] the
    next [step] raises [EmptySchedule] and changes nothing; when it
    answers a time [t], the next [step] pops an entry of that time, sets
    [now] to [t], and no queued entry is earlier; with no negative delay
    that time is not before [now]. *)
Theorem peek_announces_next_step initial_time objs ops :
  let s := exec ops (Environment initial_time objs) in
  (peek s = Infinity → step s = (Raise (exc0 EmptySchedule), s)) ∧
  (∀ t, peek s = Finite t →
     _now (step s).2 = t ∧
     (∃ x, next_entry s = Some x ∧ entry_time x = t) ∧
     ∀ y, y ∈ _queue s → (t ≤ entry_time y)%Z) ∧
  (delays_ok → Forall op_delay_ok ops → (initial_time ≤ _now s)%Z ∧
     ∀ t, peek s = Finite t → (_now s ≤ t)%Z).
Proof.
  intros s.
  destruct (exec_facts pending_value behaviour ops _
              (queue_ok_Environment initial_time objs)) as (Hok & _ & Hfut).
  fold s in Hok, Hfut.
  pose proof (next_entry_head s Hok) as Hhead.
  split; [|split].
  - unfold peek. destruct (_queue s) eqn:E; [|done]. intros _.
    by apply step_empty.
  - intros t Hpeek. unfold peek in Hpeek.
    destruct (_queue s) as [|x q] eqn:E; [done|]. injection Hpeek as <-.
    simpl in Hhead.
    destruct (step_facts pending_value behaviour s Hok) as (_ & _ & _ & _ & H5 & _).
    destruct (H5 x Hhead) as (Hnow & _ & Hmin).
    split; [done|]. split; [by exists x|].
    intros y Hy. apply key_le_time, Hmin. by rewrite E.
  - intros Hd Hops.
    destruct (Hfut Hops Hd) as [Hf Hn].
    { intros x Hx. by apply elem_of_nil in Hx. }
    split; [done|]. intros t Hpeek. unfold peek in Hpeek.
    destruct (_queue s) as [|x q] eqn:E; [done|]. injection Hpeek as <-.
    apply Hf. rewrite E. by left.
Qed.

Lemma fired_sorted ops s :
  queue_ok s → queue_future s → delays_ok → Forall op_delay_ok ops →
  Forall (λ x, (_now s ≤ entry_time x)%Z) (fired ops s) ∧
  StronglySorted (λ x y, (entry_time x ≤ entry_time y)%Z) (fired ops s).
Proof.
  intros Hok Hf Hd. revert s Hok Hf.
  induction ops as [|o ops IH]; intros s Hok Hf Hops; simpl.
  { split; constructor. }
  inversion Hops as [|? ? Ho Hops']; subst.
  destruct (exec1_facts pending_value behaviour o s Hok) as (Hok1 & _ & H3).
  destruct (H3 Ho Hd Hf) as [Hf1 Hn1].
  destruct (IH _ Hok1 Hf1 Hops') as [I1 I2].
  assert (Forall (λ x, (_now s ≤ entry_time x)%Z) (fired ops (exec1 o s))) as I1'.
  { eapply Forall_impl; [exact I1|]. simpl. intros x Hx. lia. }
  destruct o as [event priority delay|]; simpl; [done|].
  destruct (next_entry s) as [m|] eqn:E; simpl; [|done].
  destruct (step_facts pending_value behaviour s Hok) as (_ & _ & _ & _ & H5 & _).
  destruct (H5 m E) as (Hnow & Hin & _).
  split.
  - constructor; [by apply Hf|done].
  - constructor; [done|]. simpl in I1. by rewrite Hnow in I1.
Qed.

(** X2: with no negative delay, in the calls of the program and in those
    of its callbacks, the entries are popped in non-decreasing order of
    time, none before the initial time. *)
Theorem events_fire_in_time_order initial_time objs ops :
  delays_ok → Forall op_delay_ok ops →
  Forall (λ x, (initial_time ≤ entry_time x)%Z)
    (fired ops (Environment initial_time objs)) ∧
  StronglySorted (λ x y, (entry_time x ≤ entry_time y)%Z)
    (fired ops (Environment initial_time objs)).
Proof.
  intros Hd Hops.
  apply (fired_sorted ops (Environment initial_time objs)); try done.
  - apply queue_ok_Environment.
  - intros x Hx. by apply elem_of_nil in Hx.
Qed.






(** X4: an entry in the queue is popped before every entry of greater
    key, also before one that is scheduled later: earlier time first,
    [URGENT] before [NORMAL] at equal time. *)
Theorem smaller_key_fires_first initial_time objs ops ops' x1 x2 l1 l2 :
  let s := exec ops (Environment initial_time objs) in
  x1 ∈ _queue s → key_lt x1 x2 →
  fired ops' s = l1 ++ x2 :: l2 → x1 ∈ l1.
Proof.
  intros s Hin Hlt Hf.
  destruct (exec_facts pending_value behaviour ops _
              (queue_ok_Environment initial_time objs)) as (Hok & _).
  by apply (fifo_general pending_value behaviour ops' s x1 x2 l1 l2).
Qed.

Lemma quiet_step s :
  queue_ok s → NoDup (entry_event <$> _queue s) →
  Forall (quiet_entry s) (_queue s) → _queue s ≠ [] →
  ∃ x q s',
    step s = (Return tt, s') ∧ x ∈ _queue s ∧ _queue s ≡ₚ x :: q ∧
    (∀ y, y ∈ _queue s → key_le x y) ∧
    _queue s' = q ∧ _now s' = entry_time x ∧ _eid s' = _eid s ∧
    queue_ok s' ∧ Forall (quiet_entry s') q.
Proof.
  intros Hok Hnd Hquiet Hne.
  destruct (step_pop pending_value behaviour s Hok Hne)
    as (x & q & Hpop & Hin & Hmin & Hperm & Hok1 & Hstep).
  pose proof (proj1 (Forall_forall _ _) Hquiet x Hin) as Hx.
  unfold quiet_entry in Hx.
  destruct (events s !! entry_event x) as [ev|] eqn:Hev; [|done].
  destruct Hx as [Hcbs Hokev].
  exists x, q, (detached (entry_event x) ev (popped x q s)).
  split.
  { rewrite Hstep. change (set_queue q (set_now (entry_time x) s)) with (popped x q s).
    rewrite (process_eq pending_value behaviour (entry_event x) (popped x q s) ev []
               Hev Hcbs).
    rewrite bind_eq. cbn [core.for_callbacks ret].
    rewrite (crash_check_eq (entry_event x) _ (with_callbacks None ev)).
    - simpl. by rewrite Hokev.
    - unfold detached. simpl. by rewrite lookup_insert_eq. }
  split; [done|]. split; [done|]. split; [done|]. split; [done|].
  split; [done|]. split; [done|]. split; [exact Hok1|].
  rewrite Hperm in Hnd, Hquiet. rewrite fmap_cons in Hnd.
  apply NoDup_cons in Hnd as [Hnot _]. apply Forall_cons in Hquiet as [_ Hq].
  apply Forall_forall. intros y Hy.
  pose proof (proj1 (Forall_forall _ _) Hq y Hy) as Hqy.
  unfold quiet_entry, detached in *. simpl.
  rewrite lookup_insert_ne; [done|].
  intros Heq. apply Hnot. apply list_elem_of_fmap. by exists y.
Qed.

Lemma drain n s :
  length (_queue s) = n →
  queue_ok s → NoDup (entry_event <$> _queue s) →
  Forall (quiet_entry s) (_queue s) →
  ∃ s', steps n s = Some s' ∧ _queue s' = [] ∧ _eid s' = _eid s ∧
    (∀ x, x ∈ _queue s → (entry_time x ≤ _now s')%Z) ∧
    (_queue s ≠ [] → ∃ x, x ∈ _queue s ∧ _now s' = entry_time x).
Proof.
  revert s. induction n as [|n IH]; intros s Hlen Hok Hnd Hquiet.
  { apply nil_length_inv in Hlen. exists s. split; [done|]. split; [done|].
    split; [done|]. rewrite Hlen. split; [by intros x ?%elem_of_nil|done]. }
  assert (_queue s ≠ []) as Hne by (intros E; rewrite E in Hlen; done).
  destruct (quiet_step s Hok Hnd Hquiet Hne)
    as (x & q & s1 & Hstep & Hin & Hperm & Hmin & Hq & Hnow & Heid & Hok1 & Hquiet1).
  assert (NoDup (entry_event <$> _queue s1)) as Hnd1.
  { rewrite Hq. rewrite Hperm, fmap_cons in Hnd. by apply NoDup_cons in Hnd as [_ ?]. }
  assert (length (_queue s1) = n) as Hlen1.
  { rewrite Hq. apply Permutation_length in Hperm. simpl in Hperm. lia. }
  rewrite <-Hq in Hquiet1.
  destruct (IH s1 Hlen1 Hok1 Hnd1 Hquiet1) as (s' & Hsteps & Hempty & Heid' & Hmax & Hlast).
  exists s'. split; [simpl; by rewrite Hstep|]. split; [done|]. split; [congruence|].
  assert (entry_time x ≤ _now s')%Z as Hx.
  { destruct (decide (_queue s1 = [])) as [E|Hne1].
    - destruct n; [|by rewrite E in Hlen1]. simpl in Hsteps.
      injection Hsteps as <-. lia.
    - destruct (Hlast Hne1) as (y & Hy & ->). apply key_le_time, Hmin.
      rewrite Hperm. right. by rewrite <-Hq. }
  split.
  - intros y. rewrite Hperm. intros [->|Hy]%elem_of_cons; [done|].
    apply Hmax. by rewrite Hq.
  - intros _. destruct (decide (_queue s1 = [])) as [E|Hne1].
    + exists x. split; [done|]. destruct n; [|by rewrite E in Hlen1].
      simpl in Hsteps. injection Hsteps as <-. done.
    + destruct (Hlast Hne1) as (y & Hy & Hny). exists y. split; [|done].
      rewrite Hperm. right. by rewrite <-Hq.
Qed.

(** X5: [run()] on a queue of distinct events that have succeeded and
    have no callbacks takes as many steps as there are entries, returns
    [None], leaves the queue empty and [now] at the greatest queued time,
    and schedules nothing. *)
Theorem run_processes_every_quiet_event initial_time objs ops :
  let s := exec ops (Environment initial_time objs) in
  NoDup (entry_event <$> _queue s) →
  Forall (quiet_entry s) (_queue s) →
  ∀ fuel, length (_queue s) < fuel →
    ∃ s', run fuel until_None s = Some (Return PyNone, s') ∧
      steps (length (_queue s)) s = Some s' ∧
      _queue s' = [] ∧ _eid s' = _eid s ∧
      (∀ x, x ∈ _queue s → (entry_time x ≤ _now s')%Z) ∧
      (_queue s ≠ [] → ∃ x, x ∈ _queue s ∧ _now s' = entry_time x).
Proof.
  intros s Hnd Hquiet fuel Hfuel.
  destruct (exec_facts pending_value behaviour ops _
              (queue_ok_Environment initial_time objs)) as (Hok & _).
  fold s in Hok.
  destruct (drain (length (_queue s)) s eq_refl Hok Hnd Hquiet)
    as (s' & Hsteps & Hempty & Heid & Hmax & Hlast).
  exists s'. split; [|done].
  by rewrite (run_eq pending_value behaviour fuel until_None s None s _ s' eq_refl
                (run_loop_steps pending_value behaviour _ s s' _ s' Hsteps
                   (step_empty pending_value behaviour s' Hempty) fuel Hfuel)).
Qed.

(** X6: [run] swallows no error: an exception that leaves a step and is
    neither a [StopSimulation] nor an [EmptySchedule] leaves [run]
    unchanged, whatever [until] is. *)
Theorem run_propagates_other_exceptions until s u s0 n sn cls args cause s' :
  run_setup until s = (Return (inr u), s0) →
  steps n s0 = Some sn →
  step sn = (Raise (Exc cls args cause), s') →
  cls ≠ StopSimulation → cls ≠ EmptySchedule →
  ∀ fuel, n < fuel → run fuel until s = Some (Raise (Exc cls args cause), s').
Proof.
  intros Hsetup Hsteps Hstep Hc1 Hc2 fuel Hfuel.
  rewrite (run_eq pending_value behaviour fuel until s u s0 _ s' Hsetup
             (run_loop_steps pending_value behaviour n s0 sn _ s' Hsteps Hstep fuel Hfuel)).
  by destruct cls.
Qed.

(** X7: when the queue is empty while the [until] event has a value,
    though it was never popped, the assertion of [run] fails:
    [AssertionError] instead of [RuntimeError]. *)
Theorem run_until_triggered_unscheduled_event s E evE cbs0 n sn ev :
  events s !! E = Some evE → callbacks evE = Some cbs0 →
  let s0 := set_events
              (<[E := with_callbacks (Some (cbs0 ++ [cb_StopSimulation])) evE]> (events s)) s in
  steps n s0 = Some sn → _queue sn = [] →
  events sn !! E = Some ev → _value ev ≠ PENDING →
  ∀ fuel, n < fuel →
    run fuel (until_Event E) s = Some (Raise (exc0 AssertionError), sn).
Proof.
  intros HevE Hcbs0 s0 Hsteps Hq Hev Hv fuel Hfuel.
  pose proof (run_setup_event pending_value s E evE cbs0 HevE Hcbs0) as Hsetup.
  fold s0 in Hsetup.
  rewrite (run_eq pending_value behaviour fuel _ s _ s0 _ sn Hsetup
             (run_loop_steps pending_value behaviour n s0 sn _ sn Hsteps
                (step_empty pending_value behaviour sn Hq) fuel Hfuel)).
  unfold run_except, exc0. rewrite bind_eq. unfold getobj. rewrite Hev.
  unfold Event_triggered. by destruct (_value ev).
Qed.

(** X8: [run(until=E)] for an event that was already processed returns
    its value at once: no step is taken and the state is as before, for
    every bound on the number of steps. *)
Theorem run_until_processed_event s E ev :
  events s !! E = Some ev → callbacks ev = None → _value ev ≠ PENDING →
  ∀ fuel, run fuel (until_Event E) s = Some (Return (_value ev), s).
Proof.
  intros Hev Hcbs Hv fuel.
  unfold core.run, core.run_setup. rewrite bind_eq. unfold getobj. rewrite Hev, Hcbs.
  rewrite bind_eq. unfold Event_value, value_property. by destruct (_value ev).
Qed.



(** X13: after [schedule] with delay [d], [peek] answers the earlier of
    its previous answer and [now + d]. *)
Theorem peek_after_schedule initial_time objs ops event priority delay :
  let s := exec ops (Environment initial_time objs) in
  peek (schedule event priority delay s)
    = Finite (match peek s with
              | Finite t => Z.min t (_now s + delay)
              | Infinity => _now s + delay
              end)%Z.
Proof.
  intros s.
  destruct (exec_facts pending_value behaviour ops _
              (queue_ok_Environment initial_time objs)) as (Hok & _).
  fold s in Hok.
  pose proof (schedule_queue_ok s event priority delay Hok) as Hok'.
  pose proof (schedule_queue s event priority delay (proj1 Hok)) as Hperm.
  set (new := ((_now s + delay)%Z, priority, _eid s, event)) in *.
  pose proof (next_entry_head _ Hok') as Hhead'.
  pose proof (next_entry_head _ Hok) as Hhead.
  destruct (step_facts pending_value behaviour _ Hok') as (_ & _ & _ & _ & H5' & _).
  destruct (step_facts pending_value behaviour _ Hok) as (_ & _ & _ & _ & H5 & _).
  unfold peek.
  change (heappush entry_lt (_queue s) new)
    with (_queue (schedule event priority delay s)) in Hperm.
  set (Q := _queue (schedule event priority delay s)) in *.
  destruct Q as [|h' q'].
  { apply Permutation_nil_cons in Hperm. done. }
  simpl in Hhead'. destruct (H5' h' Hhead') as (_ & Hin' & Hmin'). f_equal.
  assert (entry_time h' ≤ _now s + delay)%Z as Hle1.
  { apply (key_le_time h' new), Hmin'. rewrite Hperm. by left. }
  destruct (_queue s) as [|h q] eqn:E.
  - rewrite Hperm in Hin'. apply list_elem_of_singleton in Hin' as ->. done.
  - simpl in Hhead. destruct (H5 h Hhead) as (_ & Hin & Hmin).
    assert (entry_time h' ≤ entry_time h)%Z as Hle2.
    { apply key_le_time, Hmin'. rewrite Hperm. right. by left. }
    rewrite Hperm in Hin'. apply elem_of_cons in Hin' as [->|Hin'].
    + unfold new, entry_time in *. simpl in *. lia.
    + pose proof (key_le_time _ _ (Hmin h' Hin')). lia.
Qed.

End more.

(** X1 at the three scheduled events: [peek] answers 3, the next step
    pops the entry of time 3. *)
Lemma peek_announces_next_step_witness :
  let s := sample.exec sample.timeline (Environment 0 sample.three) in
  peek s = Finite 3 ∧
  behaviour_delays_ok sample.no_callables ∧ Forall op_delay_ok sample.timeline ∧
  (_now (sample.step s).2 = 3%Z ∧
   (∃ x, next_entry s = Some x ∧ entry_time x = 3%Z) ∧
   ∀ y, y ∈ _queue s → (3 ≤ entry_time y)%Z) ∧
  (0 ≤ _now s)%Z ∧ (_now s ≤ 3)%Z.
Proof.
  intros s.
  assert (peek s = Finite 3) as Hp by (vm_compute; reflexivity).
  assert (Forall op_delay_ok sample.timeline) as Hd
    by (repeat constructor; simpl; lia).
  destruct (peek_announces_next_step sample.value_raises sample.no_callables
              0 sample.three sample.timeline) as (_ & H2 & H3).
  split; [exact Hp|]. split; [exact no_callables_delays_ok|]. split; [exact Hd|].
  split; [exact (H2 3%Z Hp)|].
  destruct (H3 no_callables_delays_ok Hd) as [H4 H5].
  split; [exact H4|]. exact (H5 3%Z Hp).
Defined.

(** X2 at a program that schedules four events and takes three steps. *)
Lemma events_fire_in_time_order_witness :
  let ops := sample.timeline ++ [op_step; op_schedule 1 URGENT 0; op_step; op_step] in
  behaviour_delays_ok sample.no_callables ∧ Forall op_delay_ok ops ∧
  Forall (λ x, (0 ≤ entry_time x)%Z) (sample.fired ops (Environment 0 sample.three)) ∧
  StronglySorted (λ x y, (entry_time x ≤ entry_time y)%Z)
    (sample.fired ops (Environment 0 sample.three)).
Proof.
  intros ops.
  assert (Forall op_delay_ok ops) as Hd by (repeat constructor; simpl; lia).
  split; [exact no_callables_delays_ok|]. split; [exact Hd|].
  exact (events_fire_in_time_order sample.value_raises sample.no_callables
           0 sample.three ops no_callables_delays_ok Hd).
Defined.

(** X4 at the entries of the times 3 and 5. *)
Lemma smaller_key_fires_first_witness :
  let s := sample.exec sample.timeline (Environment 0 sample.three) in
  let x1 : entry := (3%Z, NORMAL, 0, 1) in
  let x2 : entry := (5%Z, NORMAL, 1, 2) in
  x1 ∈ _queue s ∧ key_lt x1 x2 ∧
  sample.fired [op_step; op_step] s = [x1] ++ x2 :: [] ∧
  x1 ∈ [x1].
Proof.
  intros s x1 x2.
  assert (x1 ∈ _queue s) as Hin by (vm_compute; left).
  assert (key_lt x1 x2) as Hlt by (left; vm_compute; reflexivity).
  assert (sample.fired [op_step; op_step] s = [x1] ++ x2 :: []) as Hf
    by (vm_compute; reflexivity).
  split; [exact Hin|]. split; [exact Hlt|]. split; [exact Hf|].
  exact (smaller_key_fires_first sample.value_raises sample.no_callables
           0 sample.three sample.timeline [op_step; op_step] x1 x2 [x1] [] Hin Hlt Hf).
Defined.

(** X5 at the three scheduled events, with a bound of four steps. *)
Lemma run_processes_every_quiet_event_witness :
  let s := sample.exec sample.timeline (Environment 0 sample.three) in
  NoDup (entry_event <$> _queue s) ∧
  Forall (quiet_entry s) (_queue s) ∧
  length (_queue s) < 4 ∧
  ∃ s', sample.run 4 until_None s = Some (Return PyNone, s') ∧
    sample.steps (length (_queue s)) s = Some s' ∧
    _queue s' = [] ∧ _eid s' = _eid s ∧
    (∀ x, x ∈ _queue s → (entry_time x ≤ _now s')%Z) ∧
    (_queue s ≠ [] → ∃ x, x ∈ _queue s ∧ _now s' = entry_time x).
Proof.
  intros s.
  assert (NoDup (entry_event <$> _queue s)) as Hnd.
  { vm_compute. repeat (constructor; [intros H; repeat (inversion H as [|? ? ? H']; subst; clear H; rename H' into H)|]).
    constructor. }
  assert (Forall (quiet_entry s) (_queue s)) as Hq.
  { vm_compute. repeat constructor. }
  assert (length (_queue s) < 4) as Hl by (vm_compute; lia).
  split; [exact Hnd|]. split; [exact Hq|]. split; [exact Hl|].
  exact (run_processes_every_quiet_event sample.value_raises sample.no_callables
           0 sample.three sample.timeline Hnd Hq 4 Hl).
Defined.

(** X6 at [run()] with one failed event in the queue. *)
Lemma run_propagates_other_exceptions_witness :
  let s := sample.one (sample.failed sample.boom) in
  ∃ s',
    core.run_setup sample.value_raises until_None s = (Return (inr None), s) ∧
    sample.steps 0 s = Some s ∧
    sample.step s = (Raise (Exc (OtherError 1) [PyStr 2] (Some sample.boom)), s') ∧
    OtherError 1 ≠ StopSimulation ∧ OtherError 1 ≠ EmptySchedule ∧
    0 < 1 ∧
    sample.run 1 until_None s
      = Some (Raise (Exc (OtherError 1) [PyStr 2] (Some sample.boom)), s').
Proof.
  intros s. eexists.
  assert (OtherError 1 ≠ StopSimulation) as H1 by discriminate.
  assert (OtherError 1 ≠ EmptySchedule) as H2 by discriminate.
  assert (0 < 1) as H3 by lia.
  split; [reflexivity|]. split; [reflexivity|].
  split; [vm_compute; reflexivity|]. split; [exact H1|]. split; [exact H2|].
  split; [exact H3|].
  refine (run_propagates_other_exceptions sample.value_raises sample.no_callables
            until_None s None s 0 s (OtherError 1) [PyStr 2] (Some sample.boom) _
            eq_refl eq_refl _ H1 H2 1 H3).
  vm_compute. reflexivity.
Defined.

(** X7 at an event that has a value and was never scheduled. *)
Lemma run_until_triggered_unscheduled_event_witness :
  let s := Environment 0 (<[1 := sample.succeeded (PyInt 1)]> ∅) in
  let ev := with_callbacks (Some [cb_StopSimulation]) (sample.succeeded (PyInt 1)) in
  let s0 := set_events (<[1 := ev]> (events s)) s in
  events s !! 1 = Some (sample.succeeded (PyInt 1)) ∧
  _queue s0 = [] ∧ events s0 !! 1 = Some ev ∧ _value ev ≠ PENDING ∧
  sample.run 1 (until_Event 1) s = Some (Raise (exc0 AssertionError), s0).
Proof.
  intros s ev s0.
  assert (events s !! 1 = Some (sample.succeeded (PyInt 1))) as H1
    by (vm_compute; reflexivity).
  assert (events s0 !! 1 = Some ev) as H2 by (vm_compute; reflexivity).
  assert (_value ev ≠ PENDING) as H3 by discriminate.
  split; [exact H1|]. split; [reflexivity|]. split; [exact H2|]. split; [exact H3|].
  exact (run_until_triggered_unscheduled_event sample.value_raises sample.no_callables
           s 1 (sample.succeeded (PyInt 1)) [] 0 s0 ev H1 eq_refl eq_refl eq_refl
           H2 H3 1 (Nat.lt_0_succ 0)).
Defined.

(** X8 at a processed event of value 7, with three other events queued. *)
Lemma run_until_processed_event_witness :
  let ev := with_callbacks None (sample.succeeded (PyInt 7)) in
  let s := sample.exec sample.timeline (Environment 0 (<[4 := ev]> sample.three)) in
  events s !! 4 = Some ev ∧ _value ev ≠ PENDING ∧
  sample.run 0 (until_Event 4) s = Some (Return (PyInt 7), s).
Proof.
  intros ev s.
  assert (events s !! 4 = Some ev) as H1 by (vm_compute; reflexivity).
  assert (_value ev ≠ PENDING) as H2 by discriminate.
  split; [exact H1|]. split; [exact H2|].
  exact (run_until_processed_event sample.value_raises sample.no_callables
           s 4 ev H1 eq_refl H2 0).
Defined.

End core_more.

(** ** [simpy.resources.base]: further properties of [put], [get] and
    [cancel] *)
Module resources_more.
Import core resources resources_facts.

Section more.
Context {Σ Args : Type}.
Variable pending_value : outcome value.
Variable PutEvent_args GetEvent_args : Args → ref → Σ → Σ.
Variable _do_put _do_get : ref → world Σ → world Σ.

Local Abbreviation put := (resources.put PutEvent_args _do_put _do_get).
Local Abbreviation get := (resources.get GetEvent_args _do_put _do_get).
Local Abbreviation Get_cancel := (resources.Get_cancel (Σ:=Σ) pending_value).
Local Abbreviation exec :=
  (resources.exec pending_value PutEvent_args GetEvent_args _do_put _do_get).
Local Abbreviation exec1 :=
  (resources.exec1 pending_value PutEvent_args GetEvent_args _do_put _do_get).

Lemma offered_final hook l (w : world Σ) r :
  hook_final hook → is_pending w r = false →
  is_pending (offered hook l w) r = false.
Proof.
  intros Hfin. revert w. induction l as [|x l IH]; intros w Hp; [done|].
  simpl. apply IH. by apply Hfin.
Qed.

Lemma cascade_leaves hook q k (w : world Σ) r :
  hook_final hook →
  (∀ i r, i < k → q !! i = Some r →
     is_pending (offered hook (take (S i) q) w) r = false) →
  r ∈ q →
  r ∈ drop k q ∨ is_pending (offered hook (take (S k) q) w) r = false.
Proof.
  intros Hfin Hres Hin.
  rewrite <-(take_drop k q) in Hin. apply elem_of_app in Hin as [Hin|Hin]; [|by left].
  right. apply elem_of_take in Hin as (i & Hi & Hlt).
  pose proof (Hres i r Hlt Hi) as Hp.
  assert (take (S k) q = take (S i) q ++ drop (S i) (take (S k) q)) as ->.
  { rewrite <-(take_drop (S i) (take (S k) q)) at 1. f_equal.
    rewrite take_take. f_equal. lia. }
  unfold offered. rewrite foldl_app. by apply offered_final.
Qed.

(** X11: with hooks that never make a triggered request pending again,
    a request leaves its queue in one call only by being triggered or by
    its own [cancel]. *)
Theorem queued_request_leaves_by_trigger_or_cancel o res (w : world Σ) r :
  hook_final _do_put → hook_final _do_get →
  let st' := exec1 o (res, w) in
  (r ∈ put_queue res →
   r ∈ put_queue st'.1 ∨ is_pending st'.2 r = false ∨ o = op_put_cancel r) ∧
  (r ∈ get_queue res →
   r ∈ get_queue st'.1 ∨ is_pending st'.2 r = false ∨ o = op_get_cancel r).
Proof.
  intros Hfp Hfg. destruct o as [args|args|r0|r0]; simpl.
  - destruct (is_pending (_do_put (new_request PutEvent_args args w).1
                            (new_request PutEvent_args args w).2)
                (new_request PutEvent_args args w).1) eqn:E.
    + rewrite (put_pending PutEvent_args _do_put _do_get args res w E). simpl.
      split; intros Hin; left; [|done]. apply elem_of_app. by left.
    + destruct (put_triggered PutEvent_args _do_put _do_get args res w E)
        as (k & -> & Hres & _). simpl.
      split; intros Hin; [by left|].
      destruct (cascade_leaves _do_get (get_queue res) k _ r Hfg Hres Hin); auto.
  - destruct (is_pending (_do_get (new_request GetEvent_args args w).1
                            (new_request GetEvent_args args w).2)
                (new_request GetEvent_args args w).1) eqn:E.
    + rewrite (get_pending GetEvent_args _do_put _do_get args res w E). simpl.
      split; intros Hin; left; [done|]. apply elem_of_app. by left.
    + destruct (get_triggered GetEvent_args _do_put _do_get args res w E)
        as (k & -> & Hres & _). simpl.
      split; intros Hin; [|by left].
      destruct (cascade_leaves _do_put (put_queue res) k _ r Hfp Hres Hin); auto.
  - split; intros Hin.
    + destruct (decide (r = r0)) as [->|Hne]; [by right; right|]. left.
      unfold Put_cancel. destruct (requests w !! r0) as [ev|]; [|done].
      destruct (_value ev); try done.
      destruct (list_remove r0 (put_queue res)) as [q|] eqn:E; [|done].
      apply list_remove_Some in E. simpl. rewrite E in Hin.
      by apply elem_of_cons in Hin as [?|?].
    + left. unfold Put_cancel. destruct (requests w !! r0) as [ev|]; [|done].
      destruct (_value ev); try done.
      by destruct (list_remove r0 (put_queue res)).
  - split; intros Hin.
    + left. unfold resources.Get_cancel. destruct (requests w !! r0) as [ev|]; [|done].
      destruct (value_property pending_value ev) as [[]|]; try done.
      by destruct (list_remove r0 (get_queue res)).
    + destruct (decide (r = r0)) as [->|Hne]; [by right; right|]. left.
      unfold resources.Get_cancel. destruct (requests w !! r0) as [ev|]; [|done].
      destruct (value_property pending_value ev) as [[]|]; try done.
      destruct (list_remove r0 (get_queue res)) as [q|] eqn:E; [|done].
      apply list_remove_Some in E. simpl. rewrite E in Hin.
      by apply elem_of_cons in Hin as [?|?].
Qed.

End more.

Section more_invariant.
Context {Σ Args : Type}.
Variable pending_value : outcome value.
Variable PutEvent_args GetEvent_args : Args → ref → Σ → Σ.
Variable _do_put _do_get : ref → world Σ → world Σ.
Hypothesis put_local : hook_local _do_put.
Hypothesis get_local : hook_local _do_get.

Local Abbreviation Get_cancel := (resources.Get_cancel (Σ:=Σ) pending_value).
Local Abbreviation exec :=
  (resources.exec pending_value PutEvent_args GetEvent_args _do_put _do_get).

(** X12: a second [cancel] on a pending request raises [ValueError]: the
    first one has removed the request, which [list.remove] then misses. *)
Theorem cancel_twice_raises ops (w0 : world Σ) :
  let st := exec ops (BaseResource_init, w0) in
  (∀ r, r ∈ put_queue st.1 →
     let res' := (Put_cancel r st.1 st.2).2 in
     (r ∉ put_queue res') ∧
     Put_cancel r res' st.2 = (Raise (exc0 ValueError), res')) ∧
  (pending_value = Return PENDING →
   ∀ r, r ∈ get_queue st.1 →
     let res' := (Get_cancel r st.1 st.2).2 in
     (r ∉ get_queue res') ∧
     Get_cancel r res' st.2 = (Raise (exc0 ValueError), res')).
Proof.
  intros st.
  pose proof (exec_queues_ok pending_value PutEvent_args GetEvent_args _do_put _do_get
                put_local get_local ops _ (queues_ok_init w0)) as [Hp Hnd].
  fold st in Hp, Hnd.
  apply NoDup_app in Hnd as (Hnd1 & _ & Hnd2).
  split.
  - intros r Hr.
    pose proof (Hp r ltac:(apply elem_of_app; by left)) as Hpend.
    destruct (list_remove_elem r _ Hr) as (l1 & l2 & Hq & Hn1 & Hlr).
    assert (r ∉ l1 ++ l2) as Hnot.
    { rewrite Hq, <-Permutation_middle in Hnd1. by apply NoDup_cons in Hnd1 as [? _]. }
    unfold Put_cancel. unfold is_pending in Hpend.
    destruct (requests st.2 !! r) as [ev|]; [|done].
    destruct (_value ev); try done. rewrite Hlr. simpl.
    split; [done|]. by rewrite (list_remove_None r _ Hnot).
  - intros Hpv r Hr.
    pose proof (Hp r ltac:(apply elem_of_app; by right)) as Hpend.
    destruct (list_remove_elem r _ Hr) as (l1 & l2 & Hq & Hn1 & Hlr).
    assert (r ∉ l1 ++ l2) as Hnot.
    { rewrite Hq, <-Permutation_middle in Hnd2. by apply NoDup_cons in Hnd2 as [? _]. }
    unfold resources.Get_cancel, value_property. unfold is_pending in Hpend.
    destruct (requests st.2 !! r) as [ev|]; [|done].
    destruct (_value ev); try done. rewrite Hpv, Hlr. simpl.
    split; [done|]. by rewrite (list_remove_None r _ Hnot).
Qed.

End more_invariant.

(** The hooks of the resource of capacity 1 make no triggered request
    pending again. *)
Lemma succeed_final r r' (w : world bool) b :
  is_pending w r' = false → is_pending (capacity1.succeed r w b) r' = false.
Proof.
  unfold is_pending, capacity1.succeed. simpl. intros Hp.
  destruct (decide (r' = r)) as [->|Hne].
  - rewrite lookup_alter_eq. destruct (requests w !! r) as [ev|]; [|done]. done.
  - by rewrite lookup_alter_ne.
Qed.

Lemma capacity1_put_final : hook_final capacity1._do_put.
Proof.
  intros r r' w Hp. unfold capacity1._do_put.
  destruct (custom w); [done|]. by apply succeed_final.
Qed.

Lemma capacity1_get_final : hook_final capacity1._do_get.
Proof.
  intros r r' w Hp. unfold capacity1._do_get.
  destruct (custom w); [|done]. by apply succeed_final.
Qed.

(** X11 at a [put] on the resource of capacity 1 with three queued get
    requests: the first is triggered, the second stays queued. *)
Lemma queued_request_leaves_by_trigger_or_cancel_witness :
  let st := exec (Return PENDING) capacity1.no_args capacity1.no_args
              capacity1._do_put capacity1._do_get
              [op_get tt; op_get tt; op_get tt] capacity1.init in
  let st' := exec1 (Return PENDING) capacity1.no_args capacity1.no_args
               capacity1._do_put capacity1._do_get (op_put tt) st in
  hook_final capacity1._do_put ∧ hook_final capacity1._do_get ∧
  0 ∈ get_queue st.1 ∧ 1 ∈ get_queue st.1 ∧
  (0 ∈ get_queue st'.1 ∨ is_pending st'.2 0 = false ∨ op_put tt = op_get_cancel 0) ∧
  (1 ∈ get_queue st'.1 ∨ is_pending st'.2 1 = false ∨ op_put tt = op_get_cancel 1).
Proof.
  intros st st'.
  assert (0 ∈ get_queue st.1) as H0 by (vm_compute; left).
  assert (1 ∈ get_queue st.1) as H1 by (vm_compute; right; left).
  split; [exact capacity1_put_final|]. split; [exact capacity1_get_final|].
  split; [exact H0|]. split; [exact H1|].
  split.
  - exact (proj2 (queued_request_leaves_by_trigger_or_cancel (Args := unit)
             (Return PENDING) capacity1.no_args capacity1.no_args
             capacity1._do_put capacity1._do_get (op_put tt) st.1 st.2 0
             capacity1_put_final capacity1_get_final) H0).
  - exact (proj2 (queued_request_leaves_by_trigger_or_cancel (Args := unit)
             (Return PENDING) capacity1.no_args capacity1.no_args
             capacity1._do_put capacity1._do_get (op_put tt) st.1 st.2 1
             capacity1_put_final capacity1_get_final) H1).
Defined.

(** X12 at the last of two queued put requests. *)
Lemma cancel_twice_raises_witness :
  let ops := [op_put tt; op_put tt; op_put tt] in
  let st := exec (Return PENDING) capacity1.no_args capacity1.no_args
              capacity1._do_put capacity1._do_get ops capacity1.init in
  let res' := (Put_cancel 2 st.1 st.2).2 in
  hook_local capacity1._do_put ∧ hook_local capacity1._do_get ∧
  2 ∈ put_queue st.1 ∧
  (2 ∉ put_queue res') ∧
  Put_cancel 2 res' st.2 = (Raise (exc0 ValueError), res').
Proof.
  intros ops st res'.
  assert (2 ∈ put_queue st.1) as Hin by (vm_compute; right; left).
  split; [exact capacity1_put_local|]. split; [exact capacity1_get_local|].
  split; [exact Hin|].
  exact (proj1 (cancel_twice_raises (Args := unit) (Return PENDING)
                  capacity1.no_args capacity1.no_args
                  capacity1._do_put capacity1._do_get
                  capacity1_put_local capacity1_get_local
                  ops capacity1.init.2) 2 Hin).
Defined.

End resources_more.

(** ** [simpy.core] on float times and list objects: the callback list
    of [step] and the deadline of [run] *)
Module core_py_facts.
Import heapq core core_py.

Section callbacks.
Variable pending_value : outcome value.
Variable behaviour : nat → ref → state → list action * option value.

Local Abbreviation StopSimulation_callback := (core_py.StopSimulation_callback pending_value).
Local Abbreviation invoke := (core_py.invoke pending_value behaviour).
Local Abbreviation for_callbacks := (core_py.for_callbacks pending_value behaviour).
Local Abbreviation invocations := (core_py.invocations pending_value behaviour).
Local Abbreviation process := (core_py.process pending_value behaviour).
Local Abbreviation step := (core_py.step pending_value behaviour).
Local Abbreviation via_events := (core_py.via_events behaviour).

Lemma StopSimulation_callback_unchanged event s :
  (StopSimulation_callback event s).2 = s.
Proof.
  unfold core_py.StopSimulation_callback.
  unfold mbind, M_bind, bind, getobj, Event_ok, Event_value, raise_value, ret, raise.
  destruct (events s !! event) as [ev|]; [|done]. simpl.
  destruct (_ok ev) as [[]|]; [| |done]; simpl.
  - by destruct (_value ev), pending_value.
  - destruct (_value ev); try done. by destruct pending_value as [[]|].
Qed.

Lemma crash_check_unchanged event s : (crash_check event s).2 = s.
Proof.
  unfold crash_check, mbind, M_bind, bind, getobj, ret, raise.
  destruct (events s !! event) as [ev|]; [|done].
  destruct (_ok ev) as [ok|]; [|done].
  destruct (negb ok && negb (_defused ev)); [|done].
  by destruct (_value ev).
Qed.

Lemma perform_kept a l cbs s :
  ¬ action_uses a l → kept l cbs s → kept l cbs (perform s a).
Proof.
  intros Hno [Hl Hh]. destruct a as [e p d|e obj|l' c]; simpl in *.
  - done.
  - split; [done|]. intros (e' & ev' & He' & Hc). simpl in He'.
    destruct (decide (e' = e)) as [->|Hne].
    + rewrite lookup_insert_eq in He'. injection He' as <-. done.
    + rewrite lookup_insert_ne in He' by done. apply Hh. by exists e', ev'.
  - split; [|done]. simpl. by rewrite lookup_insert_ne.
Qed.

Lemma performed_kept acts l cbs s :
  (∀ a, a ∈ acts → ¬ action_uses a l) → kept l cbs s →
  kept l cbs (foldl perform s acts).
Proof.
  revert s. induction acts as [|a acts IH]; intros s Hno Hk; [done|].
  simpl. apply IH.
  - intros b Hb. apply Hno. by right.
  - apply perform_kept; [|done]. apply Hno. by left.
Qed.

Lemma invoke_kept cb event l cbs s :
  via_events → kept l cbs s → kept l cbs (invoke cb event s).2.
Proof.
  intros Hvia Hk. destruct cb as [|f].
  - cbn [core_py.invoke]. by rewrite StopSimulation_callback_unchanged.
  - cbn [core_py.invoke].
    assert (∀ a, a ∈ (behaviour f event s).1 → ¬ action_uses a l) as Hno.
    { intros a Ha Hu. destruct Hk as [Hl Hh]. apply Hh.
      apply (Hvia f event s a l Ha Hu). by rewrite Hl. }
    pose proof (performed_kept _ l cbs s Hno Hk) as Hk'.
    by destruct (behaviour f event s) as [acts [exc|]].
Qed.

(** The loop of [step] over a list object that stays as it is. *)
Lemma for_callbacks_kept calls l cbs i event s :
  via_events → kept l cbs s → length cbs ≤ i + calls →
  ∃ r s', for_callbacks calls l i event s = Some (r, s') ∧
    kept l cbs s' ∧
    (∀ cb st, (cb, st) ∈ invocations calls l i event s → kept l cbs st) ∧
    (invocations calls l i event s).*1 `prefix_of` drop i cbs ∧
    (r = Return tt → (invocations calls l i event s).*1 = drop i cbs) ∧
    s' = match last (invocations calls l i event s) with
         | Some (cb, st) => (invoke cb event st).2
         | None => s
         end.
Proof.
  intros Hvia. revert i s. induction calls as [|calls IH]; intros i s Hk Hlen.
  - destruct Hk as [Hl Hh].
    assert (cbs !! i = None) as Hi by (apply lookup_ge_None; lia).
    simpl. rewrite Hl. simpl. rewrite Hi.
    exists (Return tt), s. split; [done|]. split; [done|].
    split; [by intros ?? ?%elem_of_nil|].
    rewrite drop_ge by lia. done.
  - cbn [core_py.for_callbacks core_py.invocations].
    pose proof Hk as [Hl Hh]. rewrite Hl. simpl.
    destruct (cbs !! i) as [cb|] eqn:Hi.
    + pose proof (invoke_kept cb event l cbs s Hvia Hk) as Hk1.
      assert (drop i cbs = cb :: drop (S i) cbs) as Hd.
      { by rewrite <-(drop_S _ _ _ Hi). }
      destruct (invoke cb event s) as [[[]|exc] s1] eqn:Hinv; simpl in Hk1.
      * destruct (IH (S i) s1 Hk1 ltac:(lia))
          as (r & s' & Hfor & Hk' & Hall & Hpre & Hret & Hlast).
        exists r, s'. split; [done|]. split; [done|]. split.
        { intros c st [[= -> ->]|Hin]%elem_of_cons; [done|]. by apply (Hall c). }
        rewrite Hd, fmap_cons. simpl. split; [by apply prefix_cons|].
        split; [intros Hr; f_equal; by apply Hret|].
        rewrite last_cons.
        destruct (last (invocations calls l (S i) event s1)) as [[c st]|]; [done|].
        by rewrite Hinv.
      * exists (Raise exc), s1. split; [done|]. split; [done|]. split.
        { intros c st [[= -> ->]|Hin]%elem_of_cons; [done|]. by apply elem_of_nil in Hin. }
        rewrite Hd. simpl. split; [apply prefix_cons, prefix_nil|].
        split; [done|]. by rewrite Hinv.
    + exists (Return tt), s. split; [done|]. split; [done|].
      split; [by intros ?? ?%elem_of_nil|].
      apply lookup_ge_None in Hi. rewrite drop_ge by lia. done.
Qed.

Lemma invocations_head calls l i event s cb st :
  head (invocations calls l i event s) = Some (cb, st) → st = s.
Proof.
  destruct calls; simpl; destruct (lists s !! l ≫= (.!! i)); simpl; try done.
  by intros [= _ <-].
Qed.

(** C9 (amended): [step] sets [event.callbacks] to [None] before it calls
    any callback.  When the list object belongs to the popped event alone
    and the callables reach list objects only through the events that
    hold them, then in every state in which a callback is called no event
    holds the list and the list is as it was at the pop; [step] calls its
    elements in order, each position once, all of them unless one raises,
    and returns for every bound on the calls that is not below the length
    of the list.  An event whose [callbacks] is [None] already makes
    [step] raise [TypeError] without a call. *)
Theorem step_detaches_the_callback_list s t p n event q ev :
  heappop entry_lt (_queue s) = Some ((t, p, n, event), q) →
  events s !! event = Some ev →
  let s1 := detached event ev (popped t q s) in
  (callbacks ev = None → ∀ calls, step calls s = Some (Raise (exc0 TypeError), s1)) ∧
  ∀ l cbs,
    callbacks ev = Some l → lists s !! l = Some cbs →
    (∀ e' ev', events s !! e' = Some ev' → callbacks ev' = Some l → e' = event) →
    via_events →
    ∀ calls, length cbs ≤ calls →
      let trace := invocations calls l 0 event s1 in
      callbacks <$> events s1 !! event = Some None ∧
      (∀ cb st, head trace = Some (cb, st) → st = s1) ∧
      (∀ cb st, (cb, st) ∈ trace → lists st !! l = Some cbs ∧ ¬ held st l) ∧
      trace.*1 `prefix_of` cbs ∧
      ∃ r s2,
        for_callbacks calls l 0 event s1 = Some (r, s2) ∧
        s2 = match last trace with
             | Some (cb, st) => (invoke cb event st).2
             | None => s1
             end ∧
        (r = Return tt → trace.*1 = cbs) ∧
        lists s2 !! l = Some cbs ∧ ¬ held s2 l ∧
        step calls s
          = Some (match r with
                  | Return _ => crash_check event s2
                  | Raise exc => (Raise exc, s2)
                  end).
Proof.
  intros Hpop Hev s1.
  assert (events (popped t q s) !! event = Some ev) as Hev1 by done.
  split.
  - intros Hnone calls. unfold core_py.step. rewrite Hpop.
    unfold core_py.process. by rewrite Hev1, Hnone.
  - intros l cbs Hcbs Hl Hown Hvia calls Hcalls trace.
    assert (kept l cbs s1) as Hk.
    { split; [done|]. intros (e' & ev' & He' & Hc). unfold s1, detached in He'.
      simpl in He'. destruct (decide (e' = event)) as [->|Hne].
      - rewrite lookup_insert_eq in He'. injection He' as <-. done.
      - rewrite lookup_insert_ne in He' by done. by apply Hne, (Hown e' ev'). }
    destruct (for_callbacks_kept calls l cbs 0 event s1 Hvia Hk ltac:(simpl; lia))
      as (r & s2 & Hfor & Hk2 & Hall & Hpre & Hret & Hlast).
    rewrite drop_0 in Hpre, Hret.
    split. { unfold s1, detached. simpl. by rewrite lookup_insert_eq. }
    split; [apply invocations_head|].
    split; [exact Hall|]. split; [exact Hpre|].
    exists r, s2. split; [done|]. split; [done|]. split; [done|].
    split; [apply Hk2|]. split; [apply Hk2|].
    unfold core_py.step. rewrite Hpop. unfold core_py.process.
    rewrite Hev1, Hcbs. fold s1. rewrite Hfor. by destruct r as [[]|].
Qed.

End callbacks.

(** ** The theorems at sample programs *)

Import PrimFloat.
Local Set Warnings "-inexact-float".

Lemma appends_through_event_via_events : via_events sample.appends_through_event.
Proof.
  intros f event s a l Ha Hu _. unfold sample.appends_through_event in Ha.
  destruct (events s !! event) as [ev|] eqn:Hev; simpl in Ha;
    [|by apply elem_of_nil in Ha].
  destruct (callbacks ev) as [l0|] eqn:Hc; simpl in Ha; [|by apply elem_of_nil in Ha].
  apply list_elem_of_singleton in Ha as ->. simpl in Hu. subst l0.
  by exists event, ev.
Qed.

(** C9 at event 1 with the callback list [[Callable 0]], the callable
    doing [event.callbacks.append(...)]: it finds [None]. *)
Lemma step_detaches_the_callback_list_witness :
  let s := sample.one in
  let b := sample.appends_through_event in
  let ev := sample.succeeded 0 in
  let s1 := detached 1 ev (popped 0%float [] s) in
  let trace := invocations sample.value_raises b 1 0 0 1 s1 in
  heappop entry_lt (_queue s) = Some ((0%float, NORMAL, 0, 1), []) ∧
  events s !! 1 = Some ev ∧ callbacks ev = Some 0 ∧
  lists s !! 0 = Some [Callable 0] ∧
  (∀ e' ev', events s !! e' = Some ev' → callbacks ev' = Some 0 → e' = 1) ∧
  via_events b ∧
  callbacks <$> events s1 !! 1 = Some None ∧
  (∀ cb st, (cb, st) ∈ trace → lists st !! 0 = Some [Callable 0] ∧ ¬ held st 0) ∧
  trace.*1 `prefix_of` [Callable 0] ∧
  step sample.value_raises b 1 s = Some (Raise (exc0 AttributeError), s1).
Proof.
  intros s b ev s1 trace.
  assert (heappop entry_lt (_queue s) = Some ((0%float, NORMAL, 0, 1), [])) as H1
    by (vm_compute; reflexivity).
  assert (events s !! 1 = Some ev) as H2 by (vm_compute; reflexivity).
  assert (lists s !! 0 = Some [Callable 0]) as H3 by (vm_compute; reflexivity).
  assert (∀ e' ev', events s !! e' = Some ev' → callbacks ev' = Some 0 → e' = 1) as H4.
  { intros e' ev' He' _. change (events s) with (<[1 := ev]> (∅ : gmap ref Event)) in He'.
    destruct (decide (e' = 1)) as [->|Hne]; [done|].
    by rewrite lookup_insert_ne in He'. }
  split; [exact H1|]. split; [exact H2|]. split; [reflexivity|]. split; [exact H3|].
  split; [exact H4|]. split; [exact appends_through_event_via_events|].
  destruct (step_detaches_the_callback_list sample.value_raises b s 0%float NORMAL 0 1 [] ev
              H1 H2) as [_ H].
  destruct (H 0 [Callable 0] eq_refl H3 H4 appends_through_event_via_events 1 (le_n 1))
    as (Ha & _ & Hb & Hc & r & s2 & Hfor & _ & _ & _ & _ & Hstep).
  split; [exact Ha|]. split; [exact Hb|]. split; [exact Hc|].
  assert (Some (r, s2) = Some (Raise (exc0 AttributeError), s1)) as Hr
    by (rewrite <-Hfor; vm_compute; reflexivity).
  injection Hr as -> ->. exact Hstep.
Defined.

(** C9 as stated fails: a callable that kept a reference to the list
    object appends to it during the step; [step] calls what was appended,
    so the callback that was registered once runs twice, and the list has
    changed under the loop, although the event was detached before the
    first call. *)
Lemma kept_reference_extends_the_list :
  let s := sample.one in
  let b := sample.appends_through_reference 0 in
  let s1 := detached 1 (sample.succeeded 0) (popped 0%float [] s) in
  lists s !! 0 = Some [Callable 0] ∧
  callbacks <$> events s1 !! 1 = Some None ∧
  (invocations sample.value_raises b 2 0 0 1 s1).*1 = [Callable 0; Callable 0] ∧
  ∃ s', step sample.value_raises b 2 s = Some (Return tt, s') ∧
        lists s' !! 0 = Some [Callable 0; Callable 0].
Proof.
  intros s b s1. split; [by vm_compute|]. split; [by vm_compute|].
  split; [by vm_compute|]. eexists. split; vm_compute; reflexivity.
Qed.


End core_py_facts.
